(** * libvisiontransfer asynctransfer example and the nvcom settings dialog

    A shallow embedding of
    [libvisiontransfer/examples/asynctransfer_example.cpp] (function [main])
    and of the class declaration in [nvcom/settingsdialog.h], with the
    properties of the written specification stated over them.

    The vendor SDK ([DeviceEnumeration], [AsyncTransfer], [ImageSet]) is not
    part of the sources: its calls are answered by a [World] that fixes, for
    one run, what each call returns or throws. *)

From Stdlib Require Import ZArith List String Ascii Lia Bool QArith Sorted.
Import ListNotations.

Local Open Scope Z_scope.

(** ** C strings and the [printf] conversions used by the example *)

Module Printf.

(** A [char] array is a list of characters; [NUL] is the terminator. *)
Definition NUL : ascii := Ascii.zero.

Definition chars (s : string) : list ascii := list_ascii_of_string s.

(** The decimal digit character of [d], for [0 <= d <= 9]. *)
Definition digit (d : Z) : ascii :=
  ascii_of_nat (48 + Z.to_nat d).

(** Inverse reading of a digit character. *)
Definition digit_val (c : ascii) : Z := Z.of_nat (nat_of_ascii c) - 48.

Definition is_digit (c : ascii) : bool :=
  (48 <=? Z.of_nat (nat_of_ascii c)) && (Z.of_nat (nat_of_ascii c) <=? 57).

(** Decimal digits of a non-negative number, most significant first.  The
    recursion divides by ten; [fuel] bounds the number of digits. *)
Fixpoint digits_fuel (fuel : nat) (n : Z) : list ascii :=
  match fuel with
  | O => []
  | S fuel' =>
      if n <? 10 then [digit n]
      else digits_fuel fuel' (n / 10) ++ [digit (n mod 10)]
  end.

(** A number below [2^k] has at most [k] decimal digits, so the bit length
    is enough fuel. *)
Definition digits (n : Z) : list ascii :=
  digits_fuel (S (Z.to_nat (Z.log2 n))) n.

(** [%d] applied to an [int]. *)
Definition fmt_d (v : Z) : list ascii :=
  if v <? 0 then chars "-" ++ digits (- v) else digits v.

(** [%03d] applied to an [int]: minimum field width 3, padded with zeros
    after the sign. *)
Definition fmt_03d (v : Z) : list ascii :=
  let sign := if v <? 0 then chars "-" else [] in
  let ds := digits (Z.abs v) in
  sign ++ repeat (digit 0) (3 - List.length sign - List.length ds) ++ ds.

(** [snprintf(buf, size, ...)] of the C library: the characters stored in
    [buf] when the fully formatted text is [text].  At most [size - 1]
    characters are kept and a terminating [NUL] is appended; nothing is
    stored when [size] is 0.  (The [_snprintf_s] alias that the example
    selects under [_MSC_VER] is not modelled.) *)
Definition snprintf (size : nat) (text : list ascii) : list ascii :=
  match size with
  | O => []
  | S m => firstn m text ++ [NUL]
  end.

(** The C string held by a buffer: the characters before the first [NUL]. *)
Fixpoint c_str (buf : list ascii) : list ascii :=
  match buf with
  | [] => []
  | c :: rest => if Ascii.eqb c NUL then [] else c :: c_str rest
  end.

(** Value of a digit string, read as a decimal number. *)
Definition value (l : list ascii) : Z :=
  fold_left (fun acc c => 10 * acc + digit_val c) l 0.

End Printf.

Import Printf.

(** ** File names of the example *)

(** [sizeof(fileName)] for [char fileName[100]]. *)
Definition fileName_size : nat := 100.

(** The text that ["image%03d_%d.pgm"] formats from the arguments [(i, imgNum)],
    in the order the call passes them. *)
Definition format_fileName (i imgNum : Z) : list ascii :=
  chars "image" ++ fmt_03d i ++ chars "_" ++ fmt_d imgNum ++ chars ".pgm".

(** Contents of [fileName] after
    [snprintf(fileName, sizeof(fileName), "image%03d_%d.pgm", i, imgNum)]. *)
Definition fileName_buffer (i imgNum : Z) : list ascii :=
  snprintf fileName_size (format_fileName i imgNum).

(** The file name that [writePgmFile] receives. *)
Definition fileName (i imgNum : Z) : string :=
  string_of_list_ascii (c_str (fileName_buffer i imgNum)).

(** ** The SDK as the example uses it *)

(** An object of class [std::exception] or of a class derived from it;
    [what] is its message. *)
Record exception := { what : string }.

(** What a [throw] can raise: a [std::exception], or an object of any other
    type, which [catch(const std::exception&)] does not match. *)
Inductive thrown :=
| std_exception (ex : exception)
| other_object.

(** What a call into the SDK does: it returns a value or throws. *)
Inductive outcome (A : Type) :=
| Ok (a : A)
| Throws (t : thrown).
Arguments Ok {A} a.
Arguments Throws {A} t.

(** An entry of [DeviceEnumeration::DeviceList]. *)
Record DeviceInfo := { toString : string }.

(** A received [ImageSet]: the number of images it holds and what
    [writePgmFile(imageNumber, fileName)] does on it. *)
Record ImageSet := {
  getNumberOfImages : Z;
  writePgmFile : Z -> string -> outcome unit
}.

(** One call of [collectReceivedImageSet(imageSet, timeout)]: it returns
    false ([Ok None]), returns true with [imageSet] filled in
    ([Ok (Some imageSet)]), or throws. *)
Definition reply : Type := outcome (option ImageSet).

(** The environment of one run: the result of [discoverDevices()], of the
    [AsyncTransfer] constructor, and of the successive calls of
    [collectReceivedImageSet], in call order.  The list is the part of the
    device's behaviour that is observed; a run that uses it up is still
    polling. *)
Record World := {
  discoverDevices : outcome (list DeviceInfo);
  AsyncTransfer : DeviceInfo -> outcome unit;
  collectReceivedImageSet : list reply
}.

(** ** Observable events *)

Inductive stream := cout | cerr.

(** The output statements of [main], with their arguments. *)
Inductive message :=
| NoDevicesDiscovered
| DiscoveredDevices
| DeviceLine (s : string)
| EmptyLine
| ReceivingImageSet (imgNum : Z)
| ExceptionOccurred (msg : string).

Definition endl : string := String (ascii_of_nat 10) EmptyString.

(** The stream a message goes to and the characters written. *)
Definition text (m : message) : stream * string :=
  match m with
  | NoDevicesDiscovered => (cout, "No devices discovered!" ++ endl)
  | DiscoveredDevices => (cout, "Discovered devices:" ++ endl)
  | DeviceLine s => (cout, s ++ endl)
  | EmptyLine => (cout, endl)
  | ReceivingImageSet imgNum =>
      (cout, "Receiving image set " ++ string_of_list_ascii (fmt_d imgNum) ++ endl)
  | ExceptionOccurred msg => (cerr, "Exception occurred: " ++ msg ++ endl)
  end%string.

(** A run is observed as the sequence of its output statements and of its
    calls into the SDK, each call with its result. *)
Inductive event :=
| Print (m : message)
| Discover (r : outcome (list DeviceInfo))
| Construct (device : DeviceInfo) (r : outcome unit)
| Collect (timeout : Q) (r : reply)
| WritePgm (imageNumber : Z) (name : string) (r : outcome unit).

(** ** Control flow: a monad for traces, exceptions and [return] *)

Inductive result (A : Type) :=
| Normal (a : A)          (* the statement completed *)
| Return (code : Z)       (* a [return] statement was executed *)
| Throw (t : thrown)      (* a thrown object is propagating *)
| Pending.                (* still in the poll loop: no reply left *)
Arguments Normal {A} a.
Arguments Return {A} code.
Arguments Throw {A} t.
Arguments Pending {A}.

(** A statement maps the replies not yet consumed to the events it produces,
    the replies left and its result. *)
Definition M (A : Type) : Type :=
  list reply -> list event * list reply * result A.

Definition ret {A} (a : A) : M A := fun s => ([], s, Normal a).

Definition bind {A B} (m : M A) (f : A -> M B) : M B :=
  fun s =>
    let '(tr, s', r) := m s in
    match r with
    | Normal a => let '(tr', s'', r') := f a s' in (tr ++ tr', s'', r')
    | Return code => (tr, s', Return code)
    | Throw ex => (tr, s', Throw ex)
    | Pending => (tr, s', Pending)
    end.

Notation "x <- m ;; k" := (bind m (fun x => k))
  (at level 61, m at next level, right associativity).
Notation "m ;; k" := (bind m (fun _ => k))
  (at level 61, right associativity).

(** An output statement. *)
Definition print (m : message) : M unit := fun s => ([Print m], s, Normal tt).

(** A call into the SDK whose result [r] the world fixes; [ev] records it. *)
Definition call {A} (ev : outcome A -> event) (r : outcome A) : M A :=
  fun s =>
    ([ev r], s, match r with Ok a => Normal a | Throws ex => Throw ex end).

(** [return code;] *)
Definition return_ {A} (code : Z) : M A := fun s => ([], s, Return code).

(** [try { body } catch(const std::exception& ex) { handler }]: the
    handler runs for a propagating [std::exception]; a thrown object of
    another type is not matched and goes on propagating. *)
Definition try_catch (body : M unit) (handler : exception -> M unit) : M unit :=
  fun s =>
    let '(tr, s', r) := body s in
    match r with
    | Throw (std_exception ex) =>
        let '(tr', s'', r') := handler ex s' in (tr ++ tr', s'', r')
    | _ => (tr, s', r)
    end.

(** A loop whose body runs once for each element of [l], in order; it is
    left as soon as the body does not complete normally. *)
Fixpoint for_each {A} (l : list A) (body : A -> M unit) : M unit :=
  match l with
  | [] => ret tt
  | x :: l' => body x ;; for_each l' body
  end.

(** The values that [v] takes in [for(int v = lo; v < hi; v++)].  The
    increment never overflows: it is applied only while [v < hi], and [hi] is
    an [int]. *)
Definition int_range (lo hi : Z) : list Z :=
  map (fun k => lo + Z.of_nat k) (seq 0 (Z.to_nat (hi - lo))).

(** ** [main] of asynctransfer_example.cpp *)

(** The timeout literal of the call, in seconds. *)
Definition timeout : Q := 0.1.

(** [while(!asyncTransfer.collectReceivedImageSet(imageSet, 0.1)) { }]:
    each turn consumes the reply to one call; the loop ends when a call
    returns true or throws. *)
Fixpoint poll (s : list reply) : list event * list reply * result ImageSet :=
  match s with
  | [] => ([], [], Pending)
  | r :: s' =>
      match r with
      | Ok (Some imageSet) => ([Collect timeout r], s', Normal imageSet)
      | Ok None =>
          let '(tr, s'', res) := poll s' in (Collect timeout r :: tr, s'', res)
      | Throws ex => ([Collect timeout r], s', Throw ex)
      end
  end.

(** Body of the inner [for]: format the name, write the image. *)
Definition write_image (imageSet : ImageSet) (imgNum i : Z) : M unit :=
  let name := fileName i imgNum in
  call (WritePgm i name) (writePgmFile imageSet i name).

(** Body of the [for(int imgNum=0; imgNum<100; imgNum++)] loop. *)
Definition receive_image_set (imgNum : Z) : M unit :=
  print (ReceivingImageSet imgNum) ;;
  imageSet <- poll ;;
  for_each (int_range 0 (getNumberOfImages imageSet))
           (write_image imageSet imgNum).

(** The [try] block. *)
Definition main_try (w : World) : M unit :=
  devices <- call Discover (discoverDevices w) ;;
  match devices with
  | [] =>
      print NoDevicesDiscovered ;;
      return_ (-1)
  | device0 :: _ =>
      print DiscoveredDevices ;;
      for_each devices (fun d => print (DeviceLine (toString d))) ;;
      print EmptyLine ;;
      call (Construct device0) (AsyncTransfer w device0) ;;
      for_each (int_range 0 100) receive_image_set
  end.

(** The [catch] block. *)
Definition main_catch (ex : exception) : M unit :=
  print (ExceptionOccurred (what ex)).

(** How a run of [main] ends. *)
Inductive status :=
| Exit (code : Z)            (* [main] returned [code] *)
| Uncaught (t : thrown)      (* a thrown object left [main]: the program is terminated *)
| Polling.                   (* the replies ended inside the poll loop *)

Definition main_body (w : World) : M unit :=
  try_catch (main_try w) main_catch ;;
  return_ 0.

Definition main (w : World) : list event * status :=
  let '(tr, _, r) := main_body w (collectReceivedImageSet w) in
  (tr, match r with
       | Normal _ => Exit 0
       | Return code => Exit code
       | Throw t => Uncaught t
       | Pending => Polling
       end).

(** ** Reading a trace *)

(** A call of [collectReceivedImageSet] that returned false. *)
Definition timed_out (e : event) : Prop := e = Collect timeout (Ok None).

Definition is_collect (e : event) : bool :=
  match e with Collect _ _ => true | _ => false end.

Definition is_write (e : event) : bool :=
  match e with WritePgm _ _ _ => true | _ => false end.

(** The object a call threw, if it did. *)
Definition raised (e : event) : option thrown :=
  match e with
  | Discover (Throws ex) => Some ex
  | Construct _ (Throws ex) => Some ex
  | Collect _ (Throws ex) => Some ex
  | WritePgm _ _ (Throws ex) => Some ex
  | _ => None
  end.

(** [tr] shows the reception of [imageSet] as set number [imgNum]: the set
    is announced, polled for with calls that return false, and then a call
    returns true; [after] is what follows that call. *)
Definition receives (tr : list event) (imgNum : Z) (imageSet : ImageSet)
    (after : list event) : Prop :=
  exists before polls,
    tr = before ++ Print (ReceivingImageSet imgNum) :: polls
           ++ Collect timeout (Ok (Some imageSet)) :: after
    /\ Forall timed_out polls.

(** The event of [imageSet.writePgmFile(i, fileName)] inside set [imgNum]. *)
Definition write_ev (imageSet : ImageSet) (imgNum i : Z) : event :=
  WritePgm i (fileName i imgNum) (writePgmFile imageSet i (fileName i imgNum)).

(** Set numbers announced, image sets received and file names written, in
    trace order. *)
Definition announced (tr : list event) : list Z :=
  flat_map (fun e => match e with
                     | Print (ReceivingImageSet n) => [n]
                     | _ => []
                     end) tr.

Definition received (tr : list event) : list ImageSet :=
  flat_map (fun e => match e with
                     | Collect _ (Ok (Some imageSet)) => [imageSet]
                     | _ => []
                     end) tr.

Definition written (tr : list event) : list string :=
  flat_map (fun e => match e with
                     | WritePgm _ name _ => [name]
                     | _ => []
                     end) tr.

(** Replies under which nothing throws: the call itself does not, and no
    write on a received set does. *)
Definition quiet (r : reply) : Prop :=
  match r with
  | Ok None => True
  | Ok (Some imageSet) => forall i name, writePgmFile imageSet i name = Ok tt
  | Throws _ => False
  end.

(** Number of calls in a reply list that return true. *)
Definition successes (s : list reply) : nat :=
  List.length (filter (fun r => match r with Ok (Some _) => true | _ => false end) s).

(** Whether every announcement in a trace is followed, later in the trace,
    by a call of [collectReceivedImageSet] that returns true. *)
Fixpoint receptions_succeed (tr : list event) : bool :=
  match tr with
  | [] => true
  | Print (ReceivingImageSet _) :: rest =>
      existsb (fun e => match e with
                        | Collect _ (Ok (Some _)) => true
                        | _ => false
                        end) rest
      && receptions_succeed rest
  | _ :: rest => receptions_succeed rest
  end.

(** [INT_MAX] of a 32-bit [int]. *)
Definition INT_MAX : Z := 2147483647.

(** The file name as the specification words it: [imageNNN_i.pgm] with [NNN]
    the zero-padded set number and [i] the sub-image index. *)
Definition spec_fileName (imgNum i : Z) : string :=
  string_of_list_ascii
    (chars "image" ++ fmt_03d imgNum ++ chars "_" ++ fmt_d i ++ chars ".pgm").

(** What surrounds an event [e] of the reception loop over the set numbers
    [l], when the loop ends with [res] and its trace is [before ++ e :: after]:
    an announcement names a set of [l]; a call of [collectReceivedImageSet]
    belongs to an announced set and is followed according to its result; a
    call of [writePgmFile] belongs to a set that was received. *)
Definition focus (l : list Z) (res : result unit)
    (before : list event) (e : event) (after : list event) : Prop :=
  match e with
  | Print m => exists n, m = ReceivingImageSet n /\ In n l
  | Collect t r =>
      t = timeout /\
      exists before' n polls,
        before = before' ++ Print (ReceivingImageSet n) :: polls
        /\ Forall timed_out polls /\ In n l /\
        match r with
        | Ok None =>
            (after = [] /\ res = Pending)
            \/ exists r' after', after = Collect timeout r' :: after'
        | Throws ex => after = [] /\ res = Throw ex
        | Ok (Some imageSet) =>
            exists done rest,
              after = map (write_ev imageSet n) done ++ rest
              /\ (rest = [] \/ exists m rest', rest = Print (ReceivingImageSet m) :: rest')
              /\ ((done = int_range 0 (getNumberOfImages imageSet)
                   /\ (rest = [] -> res = Normal tt))
                  \/ exists i ex, In i done
                       /\ writePgmFile imageSet i (fileName i n) = Throws ex)
        end
  | WritePgm i name r =>
      exists before' n polls imageSet done,
        before = before' ++ Print (ReceivingImageSet n) :: polls
                   ++ Collect timeout (Ok (Some imageSet))
                   :: map (write_ev imageSet n) done
        /\ Forall timed_out polls /\ In n l
        /\ name = fileName i n /\ r = writePgmFile imageSet i name
        /\ forall ex, r = Throws ex -> after = [] /\ res = Throw ex
  | Discover _ | Construct _ _ => False
  end.

(** What [main] does between a successful discovery and the construction of
    the transfer object. *)
Definition preamble (devices : list DeviceInfo) : list event :=
  Discover (Ok devices) :: Print DiscoveredDevices
  :: map (fun d => Print (DeviceLine (toString d))) devices
  ++ [Print EmptyLine].

(** What follows the [try] block when it ends with [res]: the [catch]
    block prints if a [std::exception] is propagating. *)
Definition epilogue (res : result unit) : list event :=
  match res with
  | Throw (std_exception ex) => [Print (ExceptionOccurred (what ex))]
  | _ => []
  end.

(** How [main] ends when the [try] block ends with [res] without having
    executed a [return]. *)
Definition loop_status (res : result unit) : status :=
  match res with
  | Pending => Polling
  | Throw other_object => Uncaught other_object
  | _ => Exit 0
  end.

(** ** The declaration of [SettingsDialog] in settingsdialog.h *)

Module SettingsDialog.

Inductive access := public | private.

Inductive ctype :=
| void
| bool_
| QWidget_ptr          (* QWidget* *)
| Settings_val         (* Settings *)
| Settings_ref         (* Settings& *)
| Settings_cref        (* const Settings& *)
| Ui_ptr.              (* Ui::SettingsDialog* *)

Inductive kind := constructor | destructor | method | static_method | field.

(** One member declaration; [type_] is the return type of a function and the
    type of a field ([void] for constructor and destructor). *)
Record member := {
  name : string;
  acc : access;
  kd : kind;
  params : list ctype;
  type_ : ctype
}.

(** The members of the class, in declaration order. *)
Definition members : list member :=
  [ {| name := "SettingsDialog"; acc := public; kd := constructor;
       params := [QWidget_ptr; Settings_cref]; type_ := void |};
    {| name := "~SettingsDialog"; acc := public; kd := destructor;
       params := []; type_ := void |};
    {| name := "getSettings"; acc := public; kd := method;
       params := []; type_ := Settings_cref |};
    {| name := "chooseWriteDirectory"; acc := public; kd := static_method;
       params := [QWidget_ptr; Settings_ref; bool_]; type_ := bool_ |};
    {| name := "ui"; acc := private; kd := field;
       params := []; type_ := Ui_ptr |};
    {| name := "settingsNew"; acc := private; kd := field;
       params := []; type_ := Settings_val |};
    {| name := "settingsOrig"; acc := private; kd := field;
       params := []; type_ := Settings_val |};
    {| name := "accepted"; acc := private; kd := field;
       params := []; type_ := bool_ |};
    {| name := "dialogAccepted"; acc := private; kd := method;
       params := []; type_ := void |};
    {| name := "adjustSize"; acc := private; kd := method;
       params := []; type_ := void |} ].

Definition is_public (m : member) : bool :=
  match acc m with public => true | private => false end.

Definition is_Settings (t : ctype) : bool :=
  match t with
  | Settings_val | Settings_ref | Settings_cref => true
  | _ => false
  end.

(** A getter over [Settings]: a public member function of the dialog object
    that takes nothing and returns the settings. *)
Definition is_getter (m : member) : bool :=
  is_public m
  && match kd m with method => true | _ => false end
  && match params m with [] => true | _ => false end
  && is_Settings (type_ m).

(** A setter over [Settings]: a public member function of the dialog object
    that is handed settings. *)
Definition is_setter (m : member) : bool :=
  is_public m
  && match kd m with method => true | _ => false end
  && existsb is_Settings (params m).

(** A static helper that returns a boolean. *)
Definition is_static_bool_helper (m : member) : bool :=
  is_public m
  && match kd m with static_method => true | _ => false end
  && match type_ m with bool_ => true | _ => false end.

(** The public operations: what the interface exposes. *)
Definition public_operations : list member :=
  filter (fun m => is_public m
                   && match kd m with
                      | method | static_method => true
                      | _ => false
                      end) members.

End SettingsDialog.

(** ** Sample runs *)

Definition camera : DeviceInfo := {| toString := "192.168.10.10" |}.

Definition pixel_format_error : exception := {| what := "Illegal pixel format!" |}.

Definition oneImage : ImageSet :=
  {| getNumberOfImages := 1; writePgmFile := fun _ _ => Ok tt |}.

Definition twoImages : ImageSet :=
  {| getNumberOfImages := 2; writePgmFile := fun _ _ => Ok tt |}.

(** Two images; writing the first one throws. *)
Definition badImages : ImageSet :=
  {| getNumberOfImages := 2;
     writePgmFile := fun i _ =>
       if i =? 0 then Throws (std_exception pixel_format_error) else Ok tt |}.

(** Two images; as in the library, a write throws only for an index that
    is not one of the set's. *)
Definition strictImages : ImageSet :=
  {| getNumberOfImages := 2;
     writePgmFile := fun i _ =>
       if (0 <=? i) && (i <? 2) then Ok tt
       else Throws (std_exception {| what := "Illegal image number!" |}) |}.

(** Three images; writing the second one throws. *)
Definition partlyBadImages : ImageSet :=
  {| getNumberOfImages := 3;
     writePgmFile := fun i _ =>
       if i =? 1 then Throws (std_exception pixel_format_error) else Ok tt |}.

Definition world_of (devices : outcome (list DeviceInfo)) (s : list reply) : World :=
  {| discoverDevices := devices;
     AsyncTransfer := fun _ => Ok tt;
     collectReceivedImageSet := s |}.

(** One camera; every set arrives at the first call and holds one image. *)
Definition steady_world : World :=
  world_of (Ok [camera]) (repeat (Ok (Some oneImage)) 100).

(** One camera; every set arrives at the second call and holds two images. *)
Definition slow_world : World :=
  world_of (Ok [camera])
           (List.concat (repeat [Ok None; Ok (Some twoImages)] 100)).

(** One camera; the first set arrives and its first write throws. *)
Definition bad_write_world : World :=
  world_of (Ok [camera]) [Ok None; Ok (Some badImages)].

(** One camera; the device stops answering while set 1 is polled for. *)
Definition silent_world : World :=
  world_of (Ok [camera]) [Ok None; Ok (Some twoImages); Ok None; Ok None].

(** One camera; the second call throws an object that is not a
    [std::exception]. *)
Definition foreign_world : World :=
  world_of (Ok [camera]) [Ok None; Throws other_object].


(** One camera; set 0 arrives at the second call and is written, set 1
    arrives at once and its second write throws. *)
Definition mixed_world : World :=
  world_of (Ok [camera]) [Ok None; Ok (Some strictImages); Ok (Some partlyBadImages)].

Definition no_device_world : World := world_of (Ok []) [].

Definition broken_world : World :=
  world_of (Throws (std_exception {| what := "socket error" |})) [].

(** ** The shape of the reception loop's trace *)

(** The traces of the reception loop over the set numbers [l], with the
    result the loop ends with: set after set, an announcement, the calls that
    return false, the call that returns true and the writes for the indices
    from 0 on; the last set may still be polled for, or its reception or one
    of its writes may throw. *)
Inductive loop_shape : list Z -> list event -> result unit -> Prop :=
| shape_done : loop_shape [] [] (Normal tt)
| shape_pending n l polls :
    Forall timed_out polls ->
    loop_shape (n :: l) (Print (ReceivingImageSet n) :: polls) Pending
| shape_poll_throw n l polls ex :
    Forall timed_out polls ->
    loop_shape (n :: l)
      (Print (ReceivingImageSet n) :: polls ++ [Collect timeout (Throws ex)])
      (Throw ex)
| shape_write_throw n l polls imageSet i ex :
    Forall timed_out polls ->
    0 <= i < getNumberOfImages imageSet ->
    (forall j, 0 <= j < i -> writePgmFile imageSet j (fileName j n) = Ok tt) ->
    writePgmFile imageSet i (fileName i n) = Throws ex ->
    loop_shape (n :: l)
      (Print (ReceivingImageSet n) :: polls
         ++ Collect timeout (Ok (Some imageSet))
         :: map (write_ev imageSet n) (int_range 0 (i + 1)))
      (Throw ex)
| shape_next n l polls imageSet tr res :
    Forall timed_out polls ->
    (forall j, 0 <= j < getNumberOfImages imageSet ->
               writePgmFile imageSet j (fileName j n) = Ok tt) ->
    loop_shape l tr res ->
    loop_shape (n :: l)
      (Print (ReceivingImageSet n) :: polls
         ++ Collect timeout (Ok (Some imageSet))
         :: map (write_ev imageSet n) (int_range 0 (getNumberOfImages imageSet))
         ++ tr)
      res.

(** A reply whose image count, an [int], is at most [INT_MAX]. *)
Definition int_sized (r : reply) : Prop :=
  match r with
  | Ok (Some imageSet) => getNumberOfImages imageSet <= INT_MAX
  | _ => True
  end.

(** An image set without images. *)
Definition noImages : ImageSet :=
  {| getNumberOfImages := 0; writePgmFile := fun _ _ => Ok tt |}.

(** One camera; set 0 arrives empty, set 1 has two images, then silence. *)
Definition empty_set_world : World :=
  world_of (Ok [camera]) [Ok (Some noImages); Ok None; Ok (Some twoImages); Ok None].

(** * Properties *)

(** ** Decimal conversions *)

Section PrintfFacts.

Lemma digit_cases (d : Z) :
  0 <= d <= 9 ->
  d = 0 \/ d = 1 \/ d = 2 \/ d = 3 \/ d = 4 \/ d = 5 \/ d = 6 \/ d = 7 \/ d = 8 \/ d = 9.
Proof. lia. Qed.

Lemma digit_val_digit (d : Z) : 0 <= d <= 9 -> digit_val (digit d) = d.
Proof.
  intros H. apply digit_cases in H.
  repeat (destruct H as [H | H]; [subst d; reflexivity |]).
  subst d; reflexivity.
Qed.

Lemma is_digit_digit (d : Z) : 0 <= d <= 9 -> is_digit (digit d) = true.
Proof.
  intros H. apply digit_cases in H.
  repeat (destruct H as [H | H]; [subst d; reflexivity |]).
  subst d; reflexivity.
Qed.

Lemma value_snoc (l : list ascii) (c : ascii) :
  value (l ++ [c]) = 10 * value l + digit_val c.
Proof. unfold value. rewrite fold_left_app. reflexivity. Qed.

Lemma value_zeros (k : nat) (l : list ascii) :
  value (repeat (digit 0) k ++ l) = value l.
Proof.
  unfold value. rewrite fold_left_app. f_equal.
  induction k as [| k IH]; [reflexivity |].
  cbn [repeat fold_left]. exact IH.
Qed.

Lemma digits_fuel_value (fuel : nat) :
  forall n, 0 <= n < 2 ^ Z.of_nat fuel -> value (digits_fuel fuel n) = n.
Proof.
  induction fuel as [| fuel IH]; intros n Hn.
  - change (2 ^ Z.of_nat 0) with 1 in Hn.
    assert (n = 0) by lia. subst n. reflexivity.
  - cbn [digits_fuel]. destruct (Z.ltb_spec n 10) as [Hlt | Hge].
    + unfold value. cbn [fold_left]. rewrite digit_val_digit; lia.
    + rewrite value_snoc, IH.
      * pose proof (Z.mod_pos_bound n 10 ltac:(lia)).
        rewrite digit_val_digit by lia.
        symmetry. apply Z.div_mod. lia.
      * rewrite Nat2Z.inj_succ, Z.pow_succ_r in Hn by lia.
        split; [apply Z.div_pos; lia |].
        apply Z.div_lt_upper_bound; lia.
Qed.

Lemma digits_fuel_is_digit (fuel : nat) :
  forall n, 0 <= n -> Forall (fun c => is_digit c = true) (digits_fuel fuel n).
Proof.
  induction fuel as [| fuel IH]; intros n Hn; cbn [digits_fuel].
  - constructor.
  - destruct (Z.ltb_spec n 10) as [Hlt | Hge].
    + repeat constructor. apply is_digit_digit. lia.
    + apply Forall_app. split.
      * apply IH. apply Z.div_pos; lia.
      * repeat constructor. apply is_digit_digit.
        pose proof (Z.mod_pos_bound n 10 ltac:(lia)). lia.
Qed.

Lemma digits_fuel_length (fuel : nat) :
  forall n k, (1 <= k)%nat -> 0 <= n < 10 ^ Z.of_nat k ->
    (List.length (digits_fuel fuel n) <= k)%nat.
Proof.
  induction fuel as [| fuel IH]; intros n k Hk Hn; cbn [digits_fuel].
  - cbn. lia.
  - destruct (Z.ltb_spec n 10) as [Hlt | Hge].
    + cbn. lia.
    + destruct k as [| k]; [lia |].
      rewrite Nat2Z.inj_succ, Z.pow_succ_r in Hn by lia.
      destruct k as [| k].
      * change (10 ^ Z.of_nat 0) with 1 in Hn. lia.
      * rewrite length_app. cbn [List.length].
        assert ((List.length (digits_fuel fuel (n / 10)) <= S k)%nat).
        { apply IH; [lia |].
          split; [apply Z.div_pos; lia |].
          apply Z.div_lt_upper_bound; lia. }
        lia.
Qed.

Lemma enough_fuel (n : Z) :
  0 <= n -> n < 2 ^ Z.of_nat (S (Z.to_nat (Z.log2 n))).
Proof.
  intros Hn. rewrite Nat2Z.inj_succ, Z2Nat.id by apply Z.log2_nonneg.
  destruct (Z.eq_dec n 0) as [-> | Hnz]; [reflexivity |].
  apply Z.log2_spec. lia.
Qed.

Lemma digits_value (n : Z) : 0 <= n -> value (digits n) = n.
Proof.
  intros Hn. apply digits_fuel_value. split; [exact Hn | apply enough_fuel, Hn].
Qed.

Lemma digits_is_digit (n : Z) :
  0 <= n -> Forall (fun c => is_digit c = true) (digits n).
Proof. apply digits_fuel_is_digit. Qed.

Lemma digits_length (n : Z) (k : nat) :
  (1 <= k)%nat -> 0 <= n < 10 ^ Z.of_nat k -> (List.length (digits n) <= k)%nat.
Proof. apply digits_fuel_length. Qed.

Lemma digits_inj (n m : Z) : 0 <= n -> 0 <= m -> digits n = digits m -> n = m.
Proof.
  intros Hn Hm H. rewrite <- (digits_value n Hn), <- (digits_value m Hm).
  now rewrite H.
Qed.

Lemma fmt_d_nonneg (v : Z) : 0 <= v -> fmt_d v = digits v.
Proof.
  intros Hv. unfold fmt_d. destruct (Z.ltb_spec v 0); [lia | reflexivity].
Qed.

Lemma fmt_03d_nonneg (v : Z) :
  0 <= v ->
  fmt_03d v = repeat (digit 0) (3 - List.length (digits v)) ++ digits v.
Proof.
  intros Hv. unfold fmt_03d.
  destruct (Z.ltb_spec v 0); [lia |].
  rewrite Z.abs_eq by lia. reflexivity.
Qed.

Lemma fmt_03d_value (v : Z) : 0 <= v -> value (fmt_03d v) = v.
Proof.
  intros Hv. rewrite fmt_03d_nonneg, value_zeros by assumption.
  now apply digits_value.
Qed.

Lemma fmt_03d_is_digit (v : Z) :
  0 <= v -> Forall (fun c => is_digit c = true) (fmt_03d v).
Proof.
  intros Hv. rewrite fmt_03d_nonneg by assumption.
  apply Forall_app. split; [| now apply digits_is_digit].
  apply Forall_forall. intros c Hc. apply repeat_spec in Hc. now subst c.
Qed.

Lemma fmt_03d_length (v : Z) (k : nat) :
  (3 <= k)%nat -> 0 <= v < 10 ^ Z.of_nat k -> (List.length (fmt_03d v) <= k)%nat.
Proof.
  intros Hk Hv. rewrite fmt_03d_nonneg by lia.
  rewrite length_app, repeat_length.
  assert ((List.length (digits v) <= k)%nat) by (apply digits_length; lia).
  lia.
Qed.

(** A run of digits stops at the first underscore. *)
Lemma split_at_underscore (a b x y : list ascii) :
  Forall (fun c => is_digit c = true) a ->
  Forall (fun c => is_digit c = true) b ->
  a ++ "_"%char :: x = b ++ "_"%char :: y ->
  a = b /\ x = y.
Proof.
  intros Ha. revert b. induction Ha as [| c a Hc Ha IH]; intros b Hb H.
  - destruct Hb as [| d b Hd Hb]; cbn in H.
    + now inversion H.
    + inversion H; subst d. discriminate Hd.
  - destruct Hb as [| d b Hd Hb]; cbn in H.
    + inversion H; subst c. discriminate Hc.
    + inversion H; subst d. destruct (IH b Hb) as [-> ->]; auto.
Qed.

Lemma c_str_terminated (l rest : list ascii) :
  Forall (fun c => c <> NUL) l -> c_str (l ++ NUL :: rest) = l.
Proof.
  induction 1 as [| c l Hc Hl IH]; cbn.
  - reflexivity.
  - destruct (Ascii.eqb_spec c NUL); [contradiction | now rewrite IH].
Qed.

Lemma digit_not_NUL (l : list ascii) :
  Forall (fun c => is_digit c = true) l -> Forall (fun c => c <> NUL) l.
Proof.
  apply Forall_impl. intros c Hc ->. discriminate Hc.
Qed.

Lemma string_of_list_ascii_inj (l1 l2 : list ascii) :
  string_of_list_ascii l1 = string_of_list_ascii l2 -> l1 = l2.
Proof.
  intros H.
  rewrite <- (list_ascii_of_string_of_list_ascii l1),
          <- (list_ascii_of_string_of_list_ascii l2).
  now rewrite H.
Qed.

End PrintfFacts.

(** ** File names *)

Section FileNames.

Lemma format_fileName_length (i imgNum : Z) :
  0 <= i <= INT_MAX -> 0 <= imgNum < 100 ->
  (List.length (format_fileName i imgNum) <= 22)%nat.
Proof.
  unfold INT_MAX. intros Hi Hn. unfold format_fileName.
  rewrite !length_app. rewrite fmt_d_nonneg by lia.
  assert ((List.length (fmt_03d i) <= 10)%nat)
    by (apply fmt_03d_length; [lia | change (10 ^ Z.of_nat 10) with 10000000000; lia]).
  assert ((List.length (digits imgNum) <= 2)%nat)
    by (apply digits_length; [lia | change (10 ^ Z.of_nat 2) with 100; lia]).
  cbn [chars list_ascii_of_string List.length]. lia.
Qed.

Lemma format_fileName_no_NUL (i imgNum : Z) :
  0 <= i -> 0 <= imgNum ->
  Forall (fun c => c <> NUL) (format_fileName i imgNum).
Proof.
  intros Hi Hn. unfold format_fileName. rewrite fmt_d_nonneg by lia.
  assert (Hlit : forall s, forallb (fun c => negb (Ascii.eqb c NUL)) (chars s) = true ->
                  Forall (fun c => c <> NUL) (chars s)).
  { intros s Hs. apply Forall_forall. intros c Hc Heq.
    rewrite forallb_forall in Hs. specialize (Hs c Hc).
    subst c. discriminate Hs. }
  apply Forall_app; split; [now apply Hlit |].
  apply Forall_app; split; [apply digit_not_NUL, fmt_03d_is_digit; lia |].
  apply Forall_app; split; [now apply Hlit |].
  apply Forall_app; split; [apply digit_not_NUL, digits_is_digit; lia |].
  now apply Hlit.
Qed.

Lemma format_fileName_inj (i1 n1 i2 n2 : Z) :
  0 <= i1 -> 0 <= n1 -> 0 <= i2 -> 0 <= n2 ->
  format_fileName i1 n1 = format_fileName i2 n2 -> i1 = i2 /\ n1 = n2.
Proof.
  intros Hi1 Hn1 Hi2 Hn2 H. unfold format_fileName in H.
  apply app_inv_head in H.
  cbn [chars list_ascii_of_string app] in H.
  apply split_at_underscore in H; try (apply fmt_03d_is_digit; lia).
  destruct H as [Hi Hn]. split.
  - rewrite <- (fmt_03d_value i1), <- (fmt_03d_value i2) by lia. now rewrite Hi.
  - apply app_inv_tail in Hn. rewrite !fmt_d_nonneg in Hn by lia.
    now apply digits_inj.
Qed.

Lemma fileName_buffer_eq (i imgNum : Z) :
  0 <= i <= INT_MAX -> 0 <= imgNum < 100 ->
  fileName_buffer i imgNum = format_fileName i imgNum ++ [NUL].
Proof.
  intros Hi Hn. unfold fileName_buffer, fileName_size, snprintf.
  rewrite firstn_all2; [reflexivity |].
  pose proof (format_fileName_length i imgNum Hi Hn). lia.
Qed.

Lemma fileName_eq (i imgNum : Z) :
  0 <= i <= INT_MAX -> 0 <= imgNum < 100 ->
  fileName i imgNum = string_of_list_ascii (format_fileName i imgNum).
Proof.
  intros Hi Hn. unfold fileName. rewrite fileName_buffer_eq by assumption.
  rewrite c_str_terminated; [reflexivity |].
  apply format_fileName_no_NUL; lia.
Qed.

Lemma string_of_list_ascii_app (l1 l2 : list ascii) :
  string_of_list_ascii (l1 ++ l2)
  = (string_of_list_ascii l1 ++ string_of_list_ascii l2)%string.
Proof. induction l1 as [| c l1 IH]; cbn; [reflexivity | now rewrite IH]. Qed.

End FileNames.

(** C8.  For a set number in 0..99 and a non-negative sub-image index that
    fits a 32-bit [int], the name formatted from ["image%03d_%d.pgm"] is
    shorter than the 100-byte buffer: [snprintf] stores all of it followed by
    the terminating NUL, at most 100 bytes in all, and the C string read back
    from the buffer is the whole formatted name. *)
Theorem fileName_fits_buffer (i imgNum : Z) :
  0 <= imgNum < 100 -> 0 <= i <= INT_MAX ->
  (List.length (format_fileName i imgNum) < fileName_size)%nat
  /\ fileName_buffer i imgNum = format_fileName i imgNum ++ [NUL]
  /\ (List.length (fileName_buffer i imgNum) <= fileName_size)%nat
  /\ c_str (fileName_buffer i imgNum) = format_fileName i imgNum.
Proof.
  intros Hn Hi.
  pose proof (format_fileName_length i imgNum Hi Hn) as Hlen.
  pose proof (fileName_buffer_eq i imgNum Hi Hn) as Hbuf.
  unfold fileName_size. repeat split.
  - lia.
  - exact Hbuf.
  - rewrite Hbuf, length_app. cbn [List.length]. lia.
  - rewrite Hbuf. apply c_str_terminated, format_fileName_no_NUL; lia.
Qed.

Lemma fileName_fits_buffer_witness :
  (List.length (format_fileName INT_MAX 99) < fileName_size)%nat
  /\ fileName_buffer INT_MAX 99 = format_fileName INT_MAX 99 ++ [NUL]
  /\ (List.length (fileName_buffer INT_MAX 99) <= fileName_size)%nat
  /\ c_str (fileName_buffer INT_MAX 99) = format_fileName INT_MAX 99.
Proof.
  apply (fileName_fits_buffer INT_MAX 99); unfold INT_MAX; lia.
Defined.

(** C9.  Two distinct pairs of a non-negative sub-image index and a set
    number in 0..99 are formatted to different texts, and, for indices that
    fit an [int], to different file names: a write never lands on the file of
    another pair. *)
Theorem fileName_injective (i1 n1 i2 n2 : Z) :
  0 <= i1 -> 0 <= i2 -> 0 <= n1 < 100 -> 0 <= n2 < 100 ->
  (i1, n1) <> (i2, n2) ->
  format_fileName i1 n1 <> format_fileName i2 n2
  /\ (i1 <= INT_MAX -> i2 <= INT_MAX -> fileName i1 n1 <> fileName i2 n2).
Proof.
  intros Hi1 Hi2 Hn1 Hn2 Hne. split.
  - intros H. apply format_fileName_inj in H; try lia.
    destruct H; subst; now apply Hne.
  - intros Hm1 Hm2 H. rewrite !fileName_eq in H by lia.
    apply string_of_list_ascii_inj, format_fileName_inj in H; try lia.
    destruct H; subst; now apply Hne.
Qed.

Lemma fileName_injective_witness :
  format_fileName 1 0 <> format_fileName 0 1
  /\ (1 <= INT_MAX -> 0 <= INT_MAX -> fileName 1 0 <> fileName 0 1).
Proof.
  apply (fileName_injective 1 0 0 1); try lia. discriminate.
Defined.

(** ** Lists cut at an element *)

Section Cuts.

Context {A : Type}.

Lemma app_cons_split (l1 l2 before after : list A) (e : A) :
  l1 ++ l2 = before ++ e :: after ->
  (exists mid, l1 = before ++ e :: mid /\ after = mid ++ l2)
  \/ (exists mid, before = l1 ++ mid /\ l2 = mid ++ e :: after).
Proof.
  revert before. induction l1 as [| a l1 IH]; intros before H.
  - right. exists before. split; [reflexivity | exact H].
  - destruct before as [| b before]; cbn in H.
    + inversion H; subst. left. exists l1. split; reflexivity.
    + inversion H; subst b. destruct (IH before H2) as [[mid [-> ->]] | [mid [-> ->]]].
      * left. exists mid. split; reflexivity.
      * right. exists mid. split; reflexivity.
Qed.

Lemma cons_app_split (a e : A) (l before after : list A) :
  a :: l = before ++ e :: after ->
  (before = [] /\ e = a /\ after = l)
  \/ (exists before', before = a :: before' /\ l = before' ++ e :: after).
Proof.
  destruct before as [| b before]; cbn; intros H; inversion H; subst.
  - left. repeat split.
  - right. exists before. split; reflexivity.
Qed.

Lemma map_cut {B : Type} (f : B -> A) (l : list B) (before after : list A) (e : A) :
  map f l = before ++ e :: after ->
  exists l1 x l2, l = l1 ++ x :: l2 /\ before = map f l1 /\ e = f x /\ after = map f l2.
Proof.
  intros H. apply map_eq_app in H. destruct H as (l1 & l' & -> & <- & H).
  apply map_eq_cons in H. destruct H as (x & l2 & -> & <- & <-).
  exists l1, x, l2. repeat split.
Qed.

End Cuts.

(** ** How the statements of [main] run *)

Section Runs.

Lemma for_each_cons_run {A} (x : A) (l : list A) (body : A -> M unit) (s : list reply) :
  for_each (x :: l) body s =
  let '(tr, s', r) := body x s in
  match r with
  | Normal _ => let '(tr', s'', r') := for_each l body s' in (tr ++ tr', s'', r')
  | Return code => (tr, s', Return code)
  | Throw ex => (tr, s', Throw ex)
  | Pending => (tr, s', Pending)
  end.
Proof. reflexivity. Qed.

Lemma print_devices_run (devices : list DeviceInfo) (s : list reply) :
  for_each devices (fun d => print (DeviceLine (toString d))) s
  = (map (fun d => Print (DeviceLine (toString d))) devices, s, Normal tt).
Proof.
  induction devices as [| d devices IH]; [reflexivity |].
  rewrite for_each_cons_run. cbn. now rewrite IH.
Qed.

Lemma receive_image_set_run (imgNum : Z) (s : list reply) :
  receive_image_set imgNum s =
  let '(tr_p, s1, rp) := poll s in
  match rp with
  | Normal imageSet =>
      let '(tr_w, s2, rw) :=
        for_each (int_range 0 (getNumberOfImages imageSet))
                 (write_image imageSet imgNum) s1 in
      (Print (ReceivingImageSet imgNum) :: tr_p ++ tr_w, s2, rw)
  | Return code => (Print (ReceivingImageSet imgNum) :: tr_p, s1, Return code)
  | Throw ex => (Print (ReceivingImageSet imgNum) :: tr_p, s1, Throw ex)
  | Pending => (Print (ReceivingImageSet imgNum) :: tr_p, s1, Pending)
  end.
Proof.
  unfold receive_image_set, bind, print.
  destruct (poll s) as [[tr_p s1] [imageSet | code | ex |]]; try reflexivity.
  destruct (for_each _ _ s1) as [[tr_w s2] rw]. reflexivity.
Qed.

(** The poll loop: calls that return false, then at most one other call. *)
Lemma poll_shape (s : list reply) :
  forall tr s' r, poll s = (tr, s', r) ->
  exists polls, Forall timed_out polls /\
    match r with
    | Normal imageSet => tr = polls ++ [Collect timeout (Ok (Some imageSet))]
    | Throw ex => tr = polls ++ [Collect timeout (Throws ex)]
    | Pending => tr = polls /\ s' = []
    | Return _ => False
    end.
Proof.
  induction s as [| [[imageSet |] | ex] s IH]; cbn [poll]; intros tr s' r H.
  - inversion H; subst. exists []. repeat split. constructor.
  - inversion H; subst. exists []. split; [constructor | reflexivity].
  - destruct (poll s) as [[tr0 s0] r0] eqn:Hp. inversion H; subst.
    destruct (IH _ _ _ eq_refl) as (polls & Hpolls & Hr).
    exists (Collect timeout (Ok None) :: polls).
    split; [constructor; [reflexivity | exact Hpolls] |].
    destruct r as [imageSet | code | ex |]; cbn.
    + now rewrite Hr.
    + contradiction.
    + now rewrite Hr.
    + destruct Hr as [-> ->]. split; reflexivity.
  - inversion H; subst. exists []. split; [constructor | reflexivity].
Qed.

(** The write loop: one call per index, in order, cut short by a throw. *)
Lemma writes_shape (imageSet : ImageSet) (imgNum : Z) (l : list Z) :
  forall s tr s' r,
  for_each l (write_image imageSet imgNum) s = (tr, s', r) ->
  s' = s /\
  match r with
  | Normal _ =>
      tr = map (write_ev imageSet imgNum) l
      /\ Forall (fun j => writePgmFile imageSet j (fileName j imgNum) = Ok tt) l
  | Throw ex =>
      exists done i todo,
        l = done ++ i :: todo
        /\ tr = map (write_ev imageSet imgNum) (done ++ [i])
        /\ Forall (fun j => writePgmFile imageSet j (fileName j imgNum) = Ok tt) done
        /\ writePgmFile imageSet i (fileName i imgNum) = Throws ex
  | _ => False
  end.
Proof.
  induction l as [| i l IH]; intros s tr s' r H.
  - inversion H; subst. repeat split. constructor.
  - rewrite for_each_cons_run in H. unfold write_image at 1, call in H.
    fold (write_ev imageSet imgNum i) in H.
    destruct (writePgmFile imageSet i (fileName i imgNum)) as [[] | ex] eqn:Hw.
    + destruct (for_each l _ s) as [[tr0 s0] r0] eqn:Hl. inversion H; subst.
      destruct (IH _ _ _ _ Hl) as [-> Hr]. split; [reflexivity |].
      destruct r as [[] | code | ex |]; try contradiction.
      * destruct Hr as [-> Hall]. split; [reflexivity |].
        constructor; assumption.
      * destruct Hr as (done & j & todo & -> & -> & Hall & Hj).
        exists (i :: done), j, todo. repeat split; try assumption.
        constructor; assumption.
    + inversion H; subst. split; [reflexivity |].
      exists [], i, l. repeat split; [constructor | assumption].
Qed.

End Runs.

(** ** The reception loop, event by event *)

Section Focus.

Lemma polls_cut (polls p1 p2 : list event) (e : event) :
  Forall timed_out polls -> polls = p1 ++ e :: p2 ->
  e = Collect timeout (Ok None) /\ Forall timed_out p1 /\ Forall timed_out p2.
Proof.
  intros H ->. apply Forall_app in H as [H1 H2]. inversion H2; subst. auto.
Qed.

Lemma polls_then_collect (p : list event) (r : reply) (rest : list event) :
  Forall timed_out p ->
  exists r' after', p ++ Collect timeout r :: rest = Collect timeout r' :: after'.
Proof.
  intros [| x p' Hx Hp].
  - exists r, rest. reflexivity.
  - rewrite Hx. exists (Ok None), (p' ++ Collect timeout r :: rest). reflexivity.
Qed.

(** Where an event of [Print m :: polls ++ tail] can sit. *)
Lemma block_cut (m : message) (polls tail before after : list event) (e : event) :
  Print m :: polls ++ tail = before ++ e :: after ->
  (before = [] /\ e = Print m /\ after = polls ++ tail)
  \/ (exists p1 p2, polls = p1 ++ e :: p2 /\ before = Print m :: p1 /\ after = p2 ++ tail)
  \/ (exists t1, before = Print m :: polls ++ t1 /\ tail = t1 ++ e :: after).
Proof.
  intros H. apply cons_app_split in H.
  destruct H as [H | (before' & -> & H)]; [left; exact H | right].
  apply app_cons_split in H.
  destruct H as [(mid & -> & ->) | (mid & -> & ->)].
  - left. exists before', mid. repeat split.
  - right. exists mid. repeat split.
Qed.

Lemma focus_lift (l1 l2 : list Z) (res : result unit)
    (pre before after : list event) (e : event) :
  incl l1 l2 ->
  focus l1 res before e after -> focus l2 res (pre ++ before) e after.
Proof.
  intros Hincl. destruct e as [m | r | d r | t r | i name r]; cbn [focus].
  - intros (n & -> & Hn). exists n. auto.
  - auto.
  - auto.
  - intros (-> & before' & n & polls & -> & Hpolls & Hn & Hr).
    split; [reflexivity |].
    exists (pre ++ before'), n, polls. rewrite <- app_assoc. auto.
  - intros (before' & n & polls & imageSet & done & -> & Hpolls & Hn & Hrest).
    exists (pre ++ before'), n, polls, imageSet, done. rewrite <- app_assoc. auto.
Qed.

Lemma block_focus (n : Z) (s : list reply) tr s' res before e after :
  receive_image_set n s = (tr, s', res) ->
  tr = before ++ e :: after ->
  focus [n] res before e after.
Proof.
  rewrite receive_image_set_run.
  destruct (poll s) as [[tr_p s1] rp] eqn:Hp.
  destruct (poll_shape _ _ _ _ Hp) as (polls & Hpolls & Hshape).
  assert (Hin : In n [n]) by (left; reflexivity).
  destruct rp as [imageSet | code | ex |].
  - (* the set is received *)
    destruct (for_each _ _ s1) as [[tr_w s2] rw] eqn:Hw.
    intros H. inversion H; subst; clear H. intros Htr.
    destruct (writes_shape _ _ _ _ _ _ _ Hw) as [_ Hws].
    rewrite <- app_assoc in Htr. cbn [app] in Htr.
    apply block_cut in Htr.
    destruct Htr as [(-> & -> & ->) | [(p1 & p2 & Hcut & -> & ->) | (t1 & -> & Htail)]].
    + exists n. auto.
    + destruct (polls_cut _ _ _ _ Hpolls Hcut) as (-> & Hp1 & Hp2).
      split; [reflexivity |]. exists [], n, p1. repeat split; try assumption.
      right. now apply polls_then_collect.
    + apply cons_app_split in Htail.
      destruct Htail as [(-> & -> & ->) | (t1' & -> & Htail)].
      * (* the call that returned true *)
        split; [reflexivity |]. exists [], n, polls.
        rewrite app_nil_r. repeat split; try assumption.
        destruct res as [[] | code | ex |]; try contradiction.
        -- destruct Hws as [-> _].
           exists (int_range 0 (getNumberOfImages imageSet)), [].
           rewrite app_nil_r. auto.
        -- destruct Hws as (done & i & todo & _ & -> & _ & Hi).
           exists (done ++ [i]), []. rewrite app_nil_r.
           repeat split; auto. right. exists i, ex.
           split; [apply in_or_app; right; left; reflexivity | exact Hi].
      * (* a write *)
        assert (Hcut : exists l, tr_w = map (write_ev imageSet n) l
                  /\ forall l1 x l2, l = l1 ++ x :: l2 ->
                       forall ex, writePgmFile imageSet x (fileName x n) = Throws ex ->
                         l2 = [] /\ res = Throw ex).
        { destruct res as [[] | code | ex |]; try contradiction.
          - destruct Hws as [-> Hall]. eexists; split; [reflexivity |].
            intros l1 x l2 Hl ex Hx. rewrite Hl in Hall.
            apply Forall_app in Hall as [_ Hall]. inversion Hall; subst. congruence.
          - destruct Hws as (done & i & todo & _ & -> & Hall & Hi).
            eexists; split; [reflexivity |].
            intros l1 x l2 Hl ex' Hx.
            destruct l2 as [| y l2] using rev_ind.
            + apply app_inj_tail in Hl as [_ ->]. split; [reflexivity | congruence].
            + clear IHl2. rewrite app_comm_cons, app_assoc in Hl.
              apply app_inj_tail in Hl as [-> _].
              apply Forall_app in Hall as [_ Hall]. inversion Hall; subst. congruence. }
        destruct Hcut as (l & -> & Hthrow).
        apply map_cut in Htail.
        destruct Htail as (l1 & x & l2 & -> & -> & -> & ->).
        exists [], n, polls, imageSet, l1.
        do 5 (split; [reflexivity || assumption |]).
        intros ex0 Hx. destruct (Hthrow _ _ _ eq_refl _ Hx) as [-> ->].
        split; reflexivity.
  - contradiction.
  - (* the call throws *)
    intros H. inversion H; subst; clear H. intros Htr.
    apply block_cut in Htr.
    destruct Htr as [(-> & -> & ->) | [(p1 & p2 & Hcut & -> & ->) | (t1 & -> & Htail)]].
    + exists n. auto.
    + destruct (polls_cut _ _ _ _ Hpolls Hcut) as (-> & Hp1 & Hp2).
      split; [reflexivity |]. exists [], n, p1. repeat split; try assumption.
      right. now apply polls_then_collect.
    + apply cons_app_split in Htail.
      destruct Htail as [(-> & -> & ->) | (t1' & -> & Htail)].
      * split; [reflexivity |]. exists [], n, polls.
        rewrite app_nil_r. repeat split; assumption.
      * now destruct t1'.
  - (* no reply left *)
    destruct Hshape as [-> ->].
    intros H. inversion H; subst; clear H. intros Htr.
    rewrite <- (app_nil_r polls) in Htr. apply block_cut in Htr.
    destruct Htr as [(-> & -> & ->) | [(p1 & p2 & Hcut & -> & ->) | (t1 & -> & Htail)]].
    + exists n. auto.
    + destruct (polls_cut _ _ _ _ Hpolls Hcut) as (-> & Hp1 & Hp2).
      split; [reflexivity |]. exists [], n, p1. repeat split; try assumption.
      rewrite app_nil_r. destruct Hp2 as [| y p2 Hy Hp2].
      * left. auto.
      * right. rewrite Hy. eauto.
    + now destruct t1.
Qed.

Lemma block_head (n : Z) (s : list reply) tr s' res :
  receive_image_set n s = (tr, s', res) ->
  exists rest, tr = Print (ReceivingImageSet n) :: rest.
Proof.
  rewrite receive_image_set_run.
  destruct (poll s) as [[tr_p s1] [imageSet | code | ex |]];
    try solve [intros H; inversion H; subst; eauto].
  destruct (for_each _ _ s1) as [[tr_w s2] rw].
  intros H; inversion H; subst; eauto.
Qed.

Lemma loop_head (l : list Z) (s : list reply) tr s' res :
  for_each l receive_image_set s = (tr, s', res) ->
  (tr = [] /\ res = Normal tt)
  \/ exists m rest, tr = Print (ReceivingImageSet m) :: rest.
Proof.
  destruct l as [| n l].
  - intros H; inversion H. now left.
  - rewrite for_each_cons_run.
    destruct (receive_image_set n s) as [[tr1 s1] r1] eqn:H1.
    destruct (block_head _ _ _ _ _ H1) as (rest & ->).
    intros H. right. destruct r1 as [[] | code | ex |];
      try solve [inversion H; subst; eauto].
    destruct (for_each l _ s1) as [[tr2 s2] r2].
    inversion H; subst. cbn. eauto.
Qed.

(** A received set's block, followed by the blocks of later sets. *)
Lemma focus_followed (n : Z) (l : list Z) (res : result unit)
    (before mid later : list event) (e : event) :
  ((later = [] /\ res = Normal tt)
   \/ exists m rest, later = Print (ReceivingImageSet m) :: rest) ->
  focus [n] (Normal tt) before e mid ->
  focus (n :: l) res before e (mid ++ later).
Proof.
  intros Hlater.
  assert (Hincl : forall x, In x [n] -> In x (n :: l))
    by (intros x [-> | []]; left; reflexivity).
  destruct e as [m | r | d r | t r | i name r]; cbn [focus].
  - intros (k & -> & Hk). exists k. auto.
  - auto.
  - auto.
  - intros (-> & before' & k & polls & -> & Hpolls & Hk & Hr).
    split; [reflexivity |]. exists before', k, polls.
    do 3 (split; [reflexivity || auto |]).
    destruct r as [[imageSet |] | ex].
    + destruct Hr as (done & rest & -> & Hrest & Hdone).
      exists done, (rest ++ later). rewrite app_assoc.
      split; [reflexivity |]. split.
      * destruct Hrest as [-> | (m & rest' & ->)].
        -- destruct Hlater as [[-> _] | Hl]; [left; reflexivity | right; exact Hl].
        -- right. exists m, (rest' ++ later). reflexivity.
      * destruct Hdone as [[-> _] | Hthrow]; [left | right; exact Hthrow].
        split; [reflexivity |]. intros Hnil.
        apply app_eq_nil in Hnil as [_ ->].
        destruct Hlater as [[_ ->] | (m & rest' & Habs)];
          [reflexivity | discriminate Habs].
    + destruct Hr as [[_ Hr] | (r' & after' & ->)]; [discriminate Hr |].
      right. exists r', (after' ++ later). reflexivity.
    + destruct Hr as [_ Hr]. discriminate Hr.
  - intros (before' & k & polls & imageSet & done & -> & Hpolls & Hk & -> & -> & Hr).
    exists before', k, polls, imageSet, done.
    do 5 (split; [reflexivity || auto |]).
    intros ex Hex. destruct (Hr ex Hex) as [_ Habs]. discriminate Habs.
Qed.

Lemma loop_focus (l : list Z) :
  forall s tr s' res before e after,
  for_each l receive_image_set s = (tr, s', res) ->
  tr = before ++ e :: after ->
  focus l res before e after.
Proof.
  induction l as [| n l IH]; intros s tr s' res before e after H.
  - inversion H; subst. intros Htr. now destruct before.
  - rewrite for_each_cons_run in H.
    destruct (receive_image_set n s) as [[tr1 s1] r1] eqn:H1.
    assert (Hone : forall b a, tr1 = b ++ e :: a -> focus (n :: l) r1 b e a).
    { intros b a Hcut. apply (focus_lift [n] (n :: l) r1 [] b a e).
      - intros x [-> | []]. left; reflexivity.
      - eapply block_focus; eassumption. }
    destruct r1 as [[] | code | ex |];
      try solve [inversion H; subst; intros Htr; now apply Hone].
    destruct (for_each l _ s1) as [[tr2 s2] r2] eqn:H2.
    inversion H; subst; clear H. intros Htr.
    apply app_cons_split in Htr.
    destruct Htr as [(mid & Hcut & ->) | (mid & -> & Hcut)].
    + apply focus_followed.
      * eapply loop_head; eassumption.
      * eapply block_focus; eassumption.
    + apply focus_lift with (l1 := l).
      * intros x Hx. right; exact Hx.
      * eapply IH; eassumption.
Qed.

Lemma block_no_return (n : Z) (s : list reply) tr s' code :
  receive_image_set n s <> (tr, s', Return code).
Proof.
  rewrite receive_image_set_run.
  destruct (poll s) as [[tr_p s1] rp] eqn:Hp.
  destruct (poll_shape _ _ _ _ Hp) as (polls & _ & Hshape).
  destruct rp as [imageSet | c | ex |]; try discriminate; try contradiction.
  destruct (for_each _ _ s1) as [[tr_w s2] rw] eqn:Hw.
  destruct (writes_shape _ _ _ _ _ _ _ Hw) as [_ Hws].
  intros H; inversion H; subst. exact Hws.
Qed.

Lemma loop_no_return (l : list Z) :
  forall s tr s' code, for_each l receive_image_set s <> (tr, s', Return code).
Proof.
  induction l as [| n l IH]; intros s tr s' code; [discriminate |].
  rewrite for_each_cons_run.
  destruct (receive_image_set n s) as [[tr1 s1] r1] eqn:H1.
  destruct r1 as [[] | c | ex |]; try discriminate.
  - destruct (for_each l _ s1) as [[tr2 s2] r2] eqn:H2.
    intros H; inversion H; subst. eapply IH; eassumption.
  - intros H; inversion H; subst. eapply block_no_return; eassumption.
Qed.

End Focus.

(** ** The whole of [main] *)


Lemma main_run (w : World) :
  main w =
  match discoverDevices w with
  | Throws t => (Discover (Throws t) :: epilogue (Throw t), loop_status (Throw t))
  | Ok [] => ([Discover (Ok []); Print NoDevicesDiscovered], Exit (-1))
  | Ok (device0 :: others) =>
      let devices := device0 :: others in
      match AsyncTransfer w device0 with
      | Throws t =>
          (preamble devices ++ Construct device0 (Throws t) :: epilogue (Throw t),
           loop_status (Throw t))
      | Ok u =>
          let '(tr, _, r) :=
            for_each (int_range 0 100) receive_image_set (collectReceivedImageSet w) in
          match r with
          | Return code => (preamble devices ++ Construct device0 (Ok u) :: tr, Exit code)
          | _ => (preamble devices ++ Construct device0 (Ok u) :: tr ++ epilogue r,
                  loop_status r)
          end
      end
  end.
Proof.
  unfold main, main_body, main_try, try_catch, bind, call, main_catch, print, return_.
  destruct (discoverDevices w) as [[| device0 others] | [ex |]]; try reflexivity.
  rewrite print_devices_run.
  destruct (AsyncTransfer w device0) as [u | [ex |]].
  - destruct (for_each (int_range 0 100) _ _) as [[tr s'] [[] | code | [ex |] |]];
      unfold preamble; cbn [app epilogue loop_status]; rewrite <- ?app_assoc; cbn [app];
      rewrite ?app_nil_r; reflexivity.
  - unfold preamble. cbn [app epilogue loop_status]. rewrite <- ?app_assoc. reflexivity.
  - unfold preamble. cbn [app epilogue loop_status]. rewrite <- ?app_assoc. reflexivity.
Qed.

(** The four ways a run of [main] can go: discovery throws, no device is
    found, the construction of the transfer object throws, or the reception
    loop is entered. *)
Lemma main_cases (w : World) (tr : list event) (st : status) :
  main w = (tr, st) ->
  (exists t, discoverDevices w = Throws t
     /\ tr = Discover (Throws t) :: epilogue (Throw t)
     /\ st = loop_status (Throw t))
  \/ (discoverDevices w = Ok []
      /\ tr = [Discover (Ok []); Print NoDevicesDiscovered]
      /\ st = Exit (-1))
  \/ (exists device0 others t,
        discoverDevices w = Ok (device0 :: others)
        /\ AsyncTransfer w device0 = Throws t
        /\ tr = preamble (device0 :: others)
                  ++ Construct device0 (Throws t) :: epilogue (Throw t)
        /\ st = loop_status (Throw t))
  \/ (exists device0 others loop s' res,
        discoverDevices w = Ok (device0 :: others)
        /\ AsyncTransfer w device0 = Ok tt
        /\ for_each (int_range 0 100) receive_image_set (collectReceivedImageSet w)
           = (loop, s', res)
        /\ tr = preamble (device0 :: others)
                  ++ Construct device0 (Ok tt) :: loop ++ epilogue res
        /\ st = loop_status res).
Proof.
  rewrite main_run.
  destruct (discoverDevices w) as [[| device0 others] | t] eqn:Hd.
  - intros H; inversion H; subst. right; left. auto.
  - cbv zeta. destruct (AsyncTransfer w device0) as [[] | t] eqn:Hc.
    + destruct (for_each _ _ _) as [[loop s'] res] eqn:Hloop.
      intros H. do 3 right. exists device0, others, loop, s', res.
      do 3 (split; [reflexivity || assumption |]).
      destruct res as [[] | code | t |]; inversion H; subst; auto.
      exfalso. eapply loop_no_return; eassumption.
    + intros H; inversion H; subst. do 2 right; left.
      exists device0, others, t. auto.
  - intros H; inversion H; subst. left. exists t. auto.
Qed.

(** The [catch] block's output: one line, for a [std::exception] only. *)
Lemma epilogue_event (res : result unit) (e : event) :
  In e (epilogue res) ->
  exists ex, res = Throw (std_exception ex)
    /\ e = Print (ExceptionOccurred (what ex)) /\ epilogue res = [e].
Proof.
  destruct res as [[] | code | [ex |] |]; cbn [epilogue]; try contradiction.
  intros [<- | []]. eauto.
Qed.

Lemma epilogue_plain (res : result unit) (e : event) :
  In e (epilogue res) ->
  is_collect e = false /\ is_write e = false /\ raised e = None
  /\ (forall d r, e <> Construct d r)
  /\ forall n, e <> Print (ReceivingImageSet n).
Proof.
  intros H. apply epilogue_event in H. destruct H as (ex & _ & -> & _).
  repeat split; discriminate.
Qed.

Lemma preamble_events (devices : list DeviceInfo) (e : event) :
  In e (preamble devices) ->
  is_collect e = false /\ is_write e = false /\ raised e = None
  /\ forall n, e <> Print (ReceivingImageSet n).
Proof.
  unfold preamble. intros [<- | [<- | H]]; [repeat split; discriminate ..|].
  apply in_app_or in H. destruct H as [H | [<- | []]].
  - apply in_map_iff in H. destruct H as (d & <- & _). repeat split; discriminate.
  - repeat split; discriminate.
Qed.

(** Where an event of a run that reached the reception loop can sit. *)
Lemma main_cut (devices : list DeviceInfo) (device0 : DeviceInfo)
    (loop : list event) (res : result unit) (before after : list event) (e : event) :
  preamble devices ++ Construct device0 (Ok tt) :: loop ++ epilogue res
  = before ++ e :: after ->
  (In e (preamble devices) \/ e = Construct device0 (Ok tt))
  \/ (exists lb la, loop = lb ++ e :: la
        /\ before = (preamble devices ++ [Construct device0 (Ok tt)]) ++ lb
        /\ after = la ++ epilogue res)
  \/ (exists ex, res = Throw (std_exception ex)
        /\ e = Print (ExceptionOccurred (what ex))
        /\ after = []
        /\ before = preamble devices ++ Construct device0 (Ok tt) :: loop).
Proof.
  intros H. apply app_cons_split in H.
  destruct H as [(mid & Hpre & _) | (mid & -> & H)].
  - left; left. rewrite Hpre. apply in_elt.
  - apply cons_app_split in H.
    destruct H as [(_ & -> & _) | (mid' & -> & H)]; [left; right; reflexivity |].
    right. apply app_cons_split in H.
    destruct H as [(la & -> & ->) | (m & -> & H)].
    + left. exists mid', la. rewrite <- app_assoc. auto.
    + right. destruct res as [[] | code | [ex |] |]; cbn [epilogue] in H;
        try (now destruct m).
      destruct m as [| x m]; [| now destruct m].
      inversion H; subst. exists ex. rewrite app_nil_r. auto.
Qed.

(** The events of the runs that do not reach the reception loop. *)
Lemma short_run_events (head : list event) (t : thrown) (e : event) :
  In e (head ++ epilogue (Throw t)) ->
  In e head
  \/ (is_collect e = false /\ is_write e = false /\ raised e = None
      /\ (forall d r, e <> Construct d r)
      /\ forall n, e <> Print (ReceivingImageSet n)).
Proof.
  intros H. apply in_app_or in H. destruct H as [H | H]; [now left | right].
  now apply epilogue_plain in H.
Qed.


(** The announcement in front of a run of polls is determined by the run. *)
Lemma last_announcement (a a' p p' : list event) (m m' : message) :
  Forall timed_out p -> Forall timed_out p' ->
  a ++ Print m :: p = a' ++ Print m' :: p' ->
  a = a' /\ m = m' /\ p = p'.
Proof.
  intros Hp Hp' H. apply app_cons_split in H.
  destruct H as [(mid & -> & ->) | (mid & -> & H)].
  - apply Forall_app in Hp' as [_ Hp']. inversion Hp'; subst. discriminate.
  - destruct mid as [| x mid]; cbn in H.
    + inversion H; subst. rewrite app_nil_r. auto.
    + inversion H; subst. apply Forall_app in Hp as [_ Hp].
      inversion Hp; subst. discriminate.
Qed.

Lemma in_int_range (lo hi i : Z) : In i (int_range lo hi) <-> lo <= i < hi.
Proof.
  unfold int_range. rewrite in_map_iff. split.
  - intros (k & <- & Hk). apply in_seq in Hk. lia.
  - intros Hi. exists (Z.to_nat (i - lo)). split; [lia |]. apply in_seq. lia.
Qed.

(** * The shape of a run *)

Lemma announced_app (a b : list event) : announced (a ++ b) = announced a ++ announced b.
Proof. apply flat_map_app. Qed.

Lemma received_app (a b : list event) : received (a ++ b) = received a ++ received b.
Proof. apply flat_map_app. Qed.


(** ** Ranges *)

Section Ranges.

Lemma seq_cut (n : nat) :
  forall a l1 x l2,
  seq a n = l1 ++ x :: l2 ->
  l1 = seq a (x - a) /\ (a <= x < a + n)%nat.
Proof.
  induction n as [| n IH]; intros a l1 x l2 H; cbn [seq] in H.
  - now destruct l1.
  - destruct l1 as [| y l1]; cbn in H; inversion H; subst.
    + rewrite Nat.sub_diag. split; [reflexivity | lia].
    + destruct (IH _ _ _ _ H2) as [Hl1 Hx].
      replace (x - y)%nat with (S (x - S y)) by lia.
      cbn [seq]. split; [now rewrite <- Hl1 | lia].
Qed.

Lemma int_range_cut (lo hi : Z) (done todo : list Z) (i : Z) :
  int_range lo hi = done ++ i :: todo ->
  done = int_range lo i /\ lo <= i < hi.
Proof.
  unfold int_range. intros H. apply map_cut in H.
  destruct H as (l1 & x & l2 & Hseq & -> & -> & _).
  apply seq_cut in Hseq. destruct Hseq as [-> Hx].
  rewrite Nat.sub_0_r. split; [| lia].
  f_equal. f_equal. lia.
Qed.

Lemma int_range_snoc (lo i : Z) :
  lo <= i -> int_range lo (i + 1) = int_range lo i ++ [i].
Proof.
  intros Hi. unfold int_range.
  replace (Z.to_nat (i + 1 - lo)) with (S (Z.to_nat (i - lo))) by lia.
  rewrite seq_S, map_app. cbn [map]. do 2 f_equal. lia.
Qed.

Lemma int_range_empty (lo hi : Z) : hi <= lo -> int_range lo hi = [].
Proof.
  intros H. unfold int_range. replace (Z.to_nat (hi - lo)) with 0%nat by lia.
  reflexivity.
Qed.

Lemma int_range_length (lo hi : Z) :
  List.length (int_range lo hi) = Z.to_nat (hi - lo).
Proof. unfold int_range. now rewrite length_map, length_seq. Qed.

Lemma firstn_int_range (lo hi : Z) (k : nat) :
  (k <= Z.to_nat (hi - lo))%nat ->
  firstn k (int_range lo hi) = int_range lo (lo + Z.of_nat k).
Proof.
  intros Hk. unfold int_range. rewrite firstn_map. f_equal.
  replace (Z.to_nat (lo + Z.of_nat k - lo)) with k by lia.
  replace (Z.to_nat (hi - lo)) with (k + (Z.to_nat (hi - lo) - k))%nat by lia.
  rewrite seq_app, firstn_app, length_seq, Nat.sub_diag, firstn_O, app_nil_r.
  apply firstn_all2. rewrite length_seq. lia.
Qed.

Lemma int_range_NoDup (lo hi : Z) : NoDup (int_range lo hi).
Proof.
  unfold int_range. apply NoDup_map_NoDup_ForallPairs; [| apply seq_NoDup].
  intros x y _ _ H. lia.
Qed.

End Ranges.

(** ** The reception loop has the shape described *)

Lemma loop_has_shape (l : list Z) :
  forall s tr s' res,
  for_each l receive_image_set s = (tr, s', res) ->
  loop_shape l tr res.
Proof.
  induction l as [| n l IH]; intros s tr s' res H.
  - inversion H; subst. constructor.
  - rewrite for_each_cons_run, receive_image_set_run in H.
    destruct (poll s) as [[tr_p s1] rp] eqn:Hp.
    destruct (poll_shape _ _ _ _ Hp) as (polls & Hpolls & Hshape).
    destruct rp as [imageSet | code | ex |]; try contradiction.
    + destruct (for_each _ (write_image imageSet n) s1) as [[tr_w s2] rw] eqn:Hw.
      destruct (writes_shape _ _ _ _ _ _ _ Hw) as [-> Hws].
      subst tr_p. destruct rw as [[] | code | ex |]; try contradiction.
      * destruct Hws as [-> Hall].
        destruct (for_each l receive_image_set s1) as [[tr2 s3] r2] eqn:H2.
        inversion H; subst.
        cbn [app]. rewrite <- !app_assoc. cbn [app].
        apply shape_next; [assumption | | eapply IH; eassumption].
        intros j Hj. rewrite Forall_forall in Hall. apply Hall.
        now apply in_int_range.
      * destruct Hws as (done & i & todo & Hcut & -> & Hall & Hi).
        inversion H; subst.
        apply int_range_cut in Hcut. destruct Hcut as [-> Hbound].
        rewrite <- int_range_snoc by lia.
        rewrite <- app_assoc. cbn [app].
        apply shape_write_throw; try assumption.
        intros j Hj. rewrite Forall_forall in Hall. apply Hall.
        now apply in_int_range.
    + subst tr_p. inversion H; subst. now apply shape_poll_throw.
    + destruct Hshape as [-> _]. inversion H; subst. now apply shape_pending.
Qed.

Lemma poll_replies (s : list reply) :
  forall tr s' r, poll s = (tr, s', r) ->
  (forall e, In e tr -> exists r0, e = Collect timeout r0 /\ In r0 s)
  /\ incl s' s.
Proof.
  induction s as [| [[imageSet |] | ex] s IH]; cbn [poll]; intros tr s' r H.
  - inversion H; subst. split; [intros e [] | apply incl_refl].
  - inversion H; subst. split; [| apply incl_tl, incl_refl].
    intros e [<- | []]. eexists. split; [reflexivity | left; reflexivity].
  - destruct (poll s) as [[tr0 s0] r0] eqn:Hp. inversion H; subst.
    destruct (IH _ _ _ eq_refl) as [Hev Hincl]. split; [| now apply incl_tl].
    intros e [<- | He].
    + eexists. split; [reflexivity | left; reflexivity].
    + destruct (Hev e He) as (r0 & -> & Hr0). exists r0. split; [reflexivity | now right].
  - inversion H; subst. split; [| apply incl_tl, incl_refl].
    intros e [<- | []]. eexists. split; [reflexivity | left; reflexivity].
Qed.

Lemma loop_replies (l : list Z) :
  forall s tr s' res,
  for_each l receive_image_set s = (tr, s', res) ->
  (forall t r, In (Collect t r) tr -> In r s) /\ incl s' s.
Proof.
  induction l as [| n l IH]; intros s tr s' res H.
  - inversion H; subst. split; [intros t r [] | apply incl_refl].
  - rewrite for_each_cons_run, receive_image_set_run in H.
    destruct (poll s) as [[tr_p s1] rp] eqn:Hp.
    destruct (poll_replies _ _ _ _ Hp) as [Hev Hincl].
    assert (Hpolls : forall t r, In (Collect t r) tr_p -> In r s).
    { intros t r Hin. destruct (Hev _ Hin) as (r0 & Heq & Hr0).
      inversion Heq; subst. exact Hr0. }
    destruct rp as [imageSet | code | ex |];
      try solve [inversion H; subst; split; [| assumption];
                 intros t r [Habs | Hin]; [discriminate Habs | eauto]].
    destruct (for_each _ (write_image imageSet n) s1) as [[tr_w s2] rw] eqn:Hw.
    destruct (writes_shape _ _ _ _ _ _ _ Hw) as [-> Hws].
    assert (Hwrites : forall t r, ~ In (Collect t r) tr_w).
    { intros t r Hin.
      assert (Hmap : exists L, tr_w = map (write_ev imageSet n) L).
      { destruct rw as [[] | code | ex |]; try contradiction.
        - destruct Hws as [-> _]. eauto.
        - destruct Hws as (done & i & todo & _ & -> & _). eauto. }
      destruct Hmap as (L & ->). apply in_map_iff in Hin.
      destruct Hin as (x & Hx & _). discriminate Hx. }
    assert (Hblock : forall t r, In (Collect t r) (tr_p ++ tr_w) -> In r s).
    { intros t r Hin. apply in_app_or in Hin. destruct Hin as [Hin | Hin]; [eauto |].
      now apply Hwrites in Hin. }
    destruct rw as [[] | code | ex |];
      try solve [inversion H; subst; split; [| assumption];
                 intros t r [Habs | Hin]; [discriminate Habs | eauto]].
    destruct (for_each l receive_image_set s1) as [[tr2 s3] r2] eqn:H2.
    destruct (IH _ _ _ _ H2) as [Hev2 Hincl2].
    inversion H; subst. split.
    + intros t r Hin. cbn [app] in Hin. destruct Hin as [Habs | Hin]; [discriminate Habs |].
      apply in_app_or in Hin. destruct Hin as [Hin | Hin]; [eauto |].
      apply Hincl. eauto.
    + intros x Hx. apply Hincl, Hincl2, Hx.
Qed.

Lemma written_app (a b : list event) : written (a ++ b) = written a ++ written b.
Proof. apply flat_map_app. Qed.

Lemma silent_events (l : list event) :
  Forall (fun e => match e with
                   | Print (ReceivingImageSet _) | Collect _ _ | WritePgm _ _ _ => False
                   | _ => True
                   end) l ->
  announced l = [] /\ received l = [] /\ written l = [].
Proof.
  induction 1 as [| e l He Hl (Ha & Hr & Hw)]; [repeat split |].
  unfold announced, received, written in *. cbn [flat_map].
  rewrite Ha, Hr, Hw.
  destruct e as [[] | r | d r | t r | i name r]; try contradiction; repeat split.
Qed.

Lemma preamble_silent (devices : list DeviceInfo) (device0 : DeviceInfo) (r : outcome unit) :
  Forall (fun e => match e with
                   | Print (ReceivingImageSet _) | Collect _ _ | WritePgm _ _ _ => False
                   | _ => True
                   end) (preamble devices ++ [Construct device0 r]).
Proof.
  apply Forall_app. split; [| repeat constructor].
  unfold preamble. do 2 (constructor; [exact I |]).
  apply Forall_app. split; [| repeat constructor].
  apply Forall_forall. intros e He. apply in_map_iff in He.
  destruct He as (d & <- & _). exact I.
Qed.

Lemma epilogue_silent (res : result unit) :
  Forall (fun e => match e with
                   | Print (ReceivingImageSet _) | Collect _ _ | WritePgm _ _ _ => False
                   | _ => True
                   end) (epilogue res).
Proof. destruct res as [[] | code | [ex |] |]; repeat constructor. Qed.

(** A run of [main] is one of the three short runs, or the preamble, the
    construction and a reception loop of the shape described. *)
Lemma main_shape (w : World) :
  (announced (fst (main w)) = [] /\ received (fst (main w)) = []
   /\ written (fst (main w)) = []
   /\ snd (main w) <> Polling
   /\ ((discoverDevices w = Ok [] /\ snd (main w) = Exit (-1))
       \/ exists e t, In e (fst (main w)) /\ raised e = Some t))
  \/ (exists device0 others loop res,
        discoverDevices w = Ok (device0 :: others)
        /\ AsyncTransfer w device0 = Ok tt
        /\ fst (main w) = (preamble (device0 :: others) ++ [Construct device0 (Ok tt)])
                            ++ loop ++ epilogue res
        /\ snd (main w) = loop_status res
        /\ loop_shape (int_range 0 100) loop res
        /\ (forall t r, In (Collect t r) loop -> In r (collectReceivedImageSet w))).
Proof.
  destruct (main w) as [tr st] eqn:Hmain. cbn [fst snd].
  destruct (main_cases _ _ _ Hmain)
    as [(t & Hd & -> & ->) | [(Hd & -> & ->) | [(d & ds & t & Hd & Hc & -> & ->)
        | (d & ds & loop & s' & res & Hd & Hc & Hloop & -> & ->)]]].
  - left.
    assert (Hsilent : Forall (fun e => match e with
                        | Print (ReceivingImageSet _) | Collect _ _ | WritePgm _ _ _ => False
                        | _ => True
                        end) (Discover (Throws t) :: epilogue (Throw t)))
      by (constructor; [exact I | apply epilogue_silent]).
    destruct (silent_events _ Hsilent) as (Ha & Hr & Hw).
    do 3 (split; [assumption |]). split; [destruct t; discriminate |].
    right. exists (Discover (Throws t)), t. split; [left |]; reflexivity.
  - left. repeat split; try discriminate. left. split; [assumption | reflexivity].
  - left.
    assert (Hsilent : Forall (fun e => match e with
                        | Print (ReceivingImageSet _) | Collect _ _ | WritePgm _ _ _ => False
                        | _ => True
                        end)
              (preamble (d :: ds) ++ Construct d (Throws t) :: epilogue (Throw t))).
    { change (Construct d (Throws t) :: epilogue (Throw t))
        with ([Construct d (Throws t)] ++ epilogue (Throw t)).
      rewrite app_assoc. apply Forall_app.
      split; [apply preamble_silent | apply epilogue_silent]. }
    destruct (silent_events _ Hsilent) as (Ha & Hr & Hw).
    do 3 (split; [assumption |]). split; [destruct t; discriminate |].
    right. exists (Construct d (Throws t)), t.
    split; [apply in_or_app; right; left |]; reflexivity.
  - right. exists d, ds, loop, res. rewrite <- app_assoc. cbn [app].
    destruct (loop_replies _ _ _ _ _ Hloop) as [Hev _].
    do 4 (split; [reflexivity || assumption |]).
    split; [eapply loop_has_shape; eassumption | exact Hev].
Qed.

(** ** Reading the loop's trace *)

Section Readers.

Lemma polls_readers (polls : list event) :
  Forall timed_out polls ->
  announced polls = [] /\ received polls = [] /\ written polls = [].
Proof.
  induction 1 as [| e polls He Hpolls (Ha & Hr & Hw)]; [repeat split |].
  rewrite He. unfold announced, received, written in *. cbn [flat_map].
  rewrite Ha, Hr, Hw. repeat split.
Qed.

Lemma writes_readers (imageSet : ImageSet) (n : Z) (L : list Z) :
  announced (map (write_ev imageSet n) L) = []
  /\ received (map (write_ev imageSet n) L) = []
  /\ written (map (write_ev imageSet n) L) = map (fun i => fileName i n) L.
Proof.
  induction L as [| i L (Ha & Hr & Hw)]; [repeat split |].
  unfold announced, received, written in *. cbn [map flat_map app].
  rewrite Ha, Hr, Hw. repeat split.
Qed.

(** Announcements, receptions and names of a set's part of the trace. *)
Lemma block_readers (n : Z) (polls : list event) (imageSet : ImageSet)
    (L : list Z) (rest : list event) :
  Forall timed_out polls ->
  let block := Print (ReceivingImageSet n) :: polls
                 ++ Collect timeout (Ok (Some imageSet))
                 :: map (write_ev imageSet n) L ++ rest in
  announced block = n :: announced rest
  /\ received block = imageSet :: received rest
  /\ written block = map (fun i => fileName i n) L ++ written rest.
Proof.
  intros Hpolls block. subst block.
  destruct (polls_readers polls Hpolls) as (Ha & Hr & Hw).
  destruct (writes_readers imageSet n L) as (Ha' & Hr' & Hw').
  change (Print (ReceivingImageSet n) :: polls
            ++ Collect timeout (Ok (Some imageSet)) :: map (write_ev imageSet n) L ++ rest)
    with ([Print (ReceivingImageSet n)] ++ polls
            ++ [Collect timeout (Ok (Some imageSet))] ++ map (write_ev imageSet n) L ++ rest).
  rewrite !announced_app, !received_app, !written_app, Ha, Hr, Hw, Ha', Hr', Hw'.
  repeat split.
Qed.

Lemma failed_block_readers (n : Z) (polls tail : list event) :
  Forall timed_out polls ->
  (tail = [] \/ exists ex, tail = [Collect timeout (Throws ex)]) ->
  announced (Print (ReceivingImageSet n) :: polls ++ tail) = [n]
  /\ received (Print (ReceivingImageSet n) :: polls ++ tail) = []
  /\ written (Print (ReceivingImageSet n) :: polls ++ tail) = [].
Proof.
  intros Hpolls Htail. destruct (polls_readers polls Hpolls) as (Ha & Hr & Hw).
  change (Print (ReceivingImageSet n) :: polls ++ tail)
    with ([Print (ReceivingImageSet n)] ++ polls ++ tail).
  rewrite !announced_app, !received_app, !written_app, Ha, Hr, Hw.
  destruct Htail as [-> | (ex & ->)]; repeat split.
Qed.

Lemma epilogue_readers (res : result unit) :
  announced (epilogue res) = [] /\ received (epilogue res) = []
  /\ written (epilogue res) = [].
Proof. destruct res as [[] | code | [ex |] |]; repeat split. Qed.

(** The readers see only the loop's part of a run that reaches the loop. *)
Lemma run_readers (devices : list DeviceInfo) (device0 : DeviceInfo)
    (loop : list event) (res : result unit) :
  let tr := (preamble devices ++ [Construct device0 (Ok tt)]) ++ loop ++ epilogue res in
  announced tr = announced loop /\ received tr = received loop
  /\ written tr = written loop.
Proof.
  intros tr. subst tr.
  destruct (silent_events _ (preamble_silent devices device0 (Ok tt))) as (Ha & Hr & Hw).
  destruct (epilogue_readers res) as (Ha' & Hr' & Hw').
  rewrite (announced_app (_ ++ _) (loop ++ _)), (announced_app loop).
  rewrite (received_app (_ ++ _) (loop ++ _)), (received_app loop).
  rewrite (written_app (_ ++ _) (loop ++ _)), (written_app loop).
  rewrite Ha, Hr, Hw, Ha', Hr', Hw', !app_nil_r. repeat split.
Qed.

End Readers.

(** ** How far the loop got *)

Lemma loop_progress (l : list Z) (tr : list event) (res : result unit) :
  loop_shape l tr res ->
  exists k, (k <= List.length l)%nat /\ announced tr = firstn k l /\
    match res with
    | Normal _ => k = List.length l /\ List.length (received tr) = k
    | Pending =>
        S (List.length (received tr)) = k
        /\ exists before n polls,
             tr = before ++ Print (ReceivingImageSet n) :: polls
             /\ Forall timed_out polls
             /\ nth_error l (List.length (received tr)) = Some n
    | Throw _ =>
        List.length (received tr) = k \/ S (List.length (received tr)) = k
    | Return _ => False
    end.
Proof.
  induction 1 as [| n l polls Hpolls | n l polls ex Hpolls
                  | n l polls imageSet i ex Hpolls Hi Hok Hthrow
                  | n l polls imageSet tr res Hpolls Hok Hshape IH].
  - exists 0%nat. repeat split. apply Nat.le_refl.
  - destruct (failed_block_readers n polls [] Hpolls (or_introl eq_refl)) as (Ha & Hr & _).
    rewrite app_nil_r in Ha, Hr.
    exists 1%nat. rewrite Ha, Hr. cbn [List.length firstn].
    split; [lia |]. split; [reflexivity |]. split; [reflexivity |].
    exists [], n, polls. repeat split. exact Hpolls.
  - destruct (failed_block_readers n polls _ Hpolls
                (or_intror (ex_intro _ ex eq_refl))) as (Ha & Hr & _).
    exists 1%nat. rewrite Ha, Hr. cbn [List.length firstn].
    split; [lia |]. split; [reflexivity |]. now right.
  - pose proof (block_readers n polls imageSet (int_range 0 (i + 1)) [] Hpolls) as Hb.
    cbv zeta in Hb. rewrite app_nil_r in Hb. destruct Hb as (Ha & Hr & _).
    exists 1%nat. rewrite Ha, Hr. cbn [List.length firstn].
    split; [lia |]. split; [reflexivity |]. now left.
  - destruct IH as (k & Hk & Hann & Hres).
    pose proof (block_readers n polls imageSet
                  (int_range 0 (getNumberOfImages imageSet)) tr Hpolls) as Hb.
    cbv zeta in Hb. destruct Hb as (Ha & Hr & _).
    exists (S k). rewrite Ha, Hr, Hann. cbn [List.length firstn].
    split; [lia |]. split; [reflexivity |].
    destruct res as [[] | code | ex |].
    + destruct Hres as [-> ->]. split; reflexivity.
    + exact Hres.
    + destruct Hres as [-> | <-]; [left | right]; reflexivity.
    + destruct Hres as (<- & before & m & polls' & -> & Hpolls' & Hnth).
      split; [reflexivity |].
      exists (Print (ReceivingImageSet n) :: polls
                ++ Collect timeout (Ok (Some imageSet))
                :: map (write_ev imageSet n) (int_range 0 (getNumberOfImages imageSet))
                ++ before), m, polls'.
      split; [| split; [exact Hpolls' | exact Hnth]].
      cbn [app]. rewrite <- !app_assoc. cbn [app]. now rewrite <- app_assoc.
Qed.

(** A loop that ends with an exception ends with the call that threw it. *)
Lemma loop_throw_last (l : list Z) (tr : list event) (ex : thrown) :
  loop_shape l tr (Throw ex) ->
  exists before e, tr = before ++ [e] /\ raised e = Some ex.
Proof.
  intros H. remember (Throw ex) as res eqn:Hres.
  induction H as [| n l polls Hpolls | n l polls ex' Hpolls
                  | n l polls imageSet i ex' Hpolls Hi Hok Hthrow
                  | n l polls imageSet tr res Hpolls Hok Hshape IH];
    try discriminate Hres.
  - inversion Hres; subst ex'.
    exists (Print (ReceivingImageSet n) :: polls), (Collect timeout (Throws ex)).
    split; reflexivity.
  - inversion Hres; subst ex'.
    exists (Print (ReceivingImageSet n) :: polls
              ++ Collect timeout (Ok (Some imageSet))
              :: map (write_ev imageSet n) (int_range 0 i)),
           (write_ev imageSet n i).
    split.
    + rewrite int_range_snoc, map_app by lia. cbn [map app].
      rewrite <- !app_assoc. reflexivity.
    + unfold write_ev. rewrite Hthrow. reflexivity.
  - destruct (IH Hres) as (before & e & -> & He).
    exists (Print (ReceivingImageSet n) :: polls
              ++ Collect timeout (Ok (Some imageSet))
              :: map (write_ev imageSet n) (int_range 0 (getNumberOfImages imageSet))
              ++ before), e.
    split; [| exact He].
    cbn [app]. rewrite <- !app_assoc. cbn [app]. now rewrite <- app_assoc.
Qed.

Lemma nth_error_int_range (lo hi : Z) (j : nat) (n : Z) :
  nth_error (int_range lo hi) j = Some n ->
  n = lo + Z.of_nat j /\ (j < Z.to_nat (hi - lo))%nat.
Proof.
  intros H. apply nth_error_split in H. destruct H as (l1 & l2 & Hcut & <-).
  apply int_range_cut in Hcut. destruct Hcut as [-> Hn].
  rewrite int_range_length. lia.
Qed.

Lemma shape_head (l : list Z) (tr : list event) (res : result unit) :
  loop_shape l tr res ->
  (tr = [] /\ res = Normal tt)
  \/ exists m rest, tr = Print (ReceivingImageSet m) :: rest.
Proof. destruct 1; [left; split; reflexivity | right; eauto ..]. Qed.

(** An announcement, a call or a write of a run lies in the reception loop of
    a run that reached it. *)
Lemma main_loop_cut (w : World) (before after : list event) (e : event) :
  fst (main w) = before ++ e :: after ->
  is_collect e || is_write e = true \/ (exists n, e = Print (ReceivingImageSet n)) ->
  exists pre loop res lb la,
    loop_shape (int_range 0 100) loop res
    /\ loop = lb ++ e :: la
    /\ before = pre ++ lb /\ after = la ++ epilogue res
    /\ snd (main w) = loop_status res
    /\ announced pre = [] /\ received pre = [].
Proof.
  destruct (main w) as [tr st] eqn:Hmain. cbn [fst snd]. intros Htr He.
  assert (Hplain : forall x,
            is_collect x = false /\ is_write x = false
            /\ (forall n, x <> Print (ReceivingImageSet n)) -> x <> e).
  { intros x (Hc & Hw & Hp) ->. destruct He as [He | (n & ->)].
    - rewrite Hc, Hw in He. discriminate He.
    - now apply (Hp n). }
  assert (Hin : In e tr) by (rewrite Htr; apply in_elt).
  destruct (main_cases _ _ _ Hmain)
    as [(t & _ & -> & _) | [(_ & -> & _) | [(d & ds & t & _ & _ & -> & _)
        | (d & ds & loop & s' & res & _ & _ & Hloop & -> & ->)]]].
  - exfalso. destruct Hin as [<- | Hin].
    + apply (Hplain (Discover (Throws t))); [repeat split; discriminate | reflexivity].
    + apply epilogue_plain in Hin as (Hc & Hw & _ & _ & Hp). now apply (Hplain e).
  - exfalso.
    destruct Hin as [<- | [<- | []]];
      (eapply Hplain; [| reflexivity]); repeat split; discriminate.
  - exfalso. apply in_app_or in Hin. destruct Hin as [Hin | [<- | Hin]].
    + apply preamble_events in Hin as (Hc & Hw & _ & Hp). now apply (Hplain e).
    + apply (Hplain (Construct d (Throws t))); [repeat split; discriminate | reflexivity].
    + apply epilogue_plain in Hin as (Hc & Hw & _ & _ & Hp). now apply (Hplain e).
  - clear Hin. apply main_cut in Htr.
    destruct Htr as [[Hin | ->] | [(lb & la & Hcut & -> & ->) | (ex & _ & -> & _)]].
    + exfalso. apply preamble_events in Hin as (Hc & Hw & _ & Hp). now apply (Hplain e).
    + exfalso.
      apply (Hplain (Construct d (Ok tt))); [repeat split; discriminate | reflexivity].
    + exists (preamble (d :: ds) ++ [Construct d (Ok tt)]), loop, res, lb, la.
      destruct (silent_events _ (preamble_silent (d :: ds) d (Ok tt))) as (Ha & Hr & _).
      split; [eapply loop_has_shape; eassumption | auto 7].
    + exfalso.
      apply (Hplain (Print (ExceptionOccurred (what ex))));
        [repeat split; discriminate | reflexivity].
Qed.

(** What surrounds an announcement in the loop's trace: the sets before it
    were announced and received one by one, and it is followed by the calls
    that return false and then by the call that ends the polling, if any. *)
Lemma shape_announce_cut (l : list Z) (tr : list event) (res : result unit) :
  loop_shape l tr res ->
  forall before n after,
  tr = before ++ Print (ReceivingImageSet n) :: after ->
  (exists j, nth_error l j = Some n /\ announced before = firstn j l
             /\ List.length (received before) = j)
  /\ exists polls rest,
       after = polls ++ rest /\ Forall timed_out polls
       /\ ((rest = [] /\ res = Pending)
           \/ (exists imageSet rest', rest = Collect timeout (Ok (Some imageSet)) :: rest')
           \/ (exists t, rest = [Collect timeout (Throws t)] /\ res = Throw t)).
Proof.
  induction 1 as [| n0 l polls Hpolls | n0 l polls ex Hpolls
                  | n0 l polls imageSet i ex Hpolls Hi Hok Hthrow
                  | n0 l polls imageSet tr res Hpolls Hok Hshape IH];
    intros before n after Htr.
  - now destruct before.
  - rewrite <- (app_nil_r polls) in Htr. apply block_cut in Htr.
    destruct Htr as [(-> & Heq & ->) | [(p1 & p2 & Hcut & _) | (t1 & _ & Habs)]].
    + inversion Heq; subst n0. split; [exists 0%nat; repeat split |].
      exists polls, []. split; [reflexivity |]. split; [exact Hpolls | left; split; reflexivity].
    + destruct (polls_cut _ _ _ _ Hpolls Hcut) as (Habs & _). discriminate Habs.
    + now destruct t1.
  - apply block_cut in Htr.
    destruct Htr as [(-> & Heq & ->) | [(p1 & p2 & Hcut & _) | (t1 & _ & Htail)]].
    + inversion Heq; subst n0. split; [exists 0%nat; repeat split |].
      exists polls, [Collect timeout (Throws ex)].
      split; [reflexivity |]. split; [exact Hpolls |]. right; right. eauto.
    + destruct (polls_cut _ _ _ _ Hpolls Hcut) as (Habs & _). discriminate Habs.
    + apply cons_app_split in Htail.
      destruct Htail as [(_ & Habs & _) | (t1' & _ & Habs)]; [discriminate Habs |].
      now destruct t1'.
  - apply block_cut in Htr.
    destruct Htr as [(-> & Heq & ->) | [(p1 & p2 & Hcut & _) | (t1 & _ & Htail)]].
    + inversion Heq; subst n0. split; [exists 0%nat; repeat split |].
      eexists polls, _. split; [reflexivity |]. split; [exact Hpolls |].
      right; left. eauto.
    + destruct (polls_cut _ _ _ _ Hpolls Hcut) as (Habs & _). discriminate Habs.
    + apply cons_app_split in Htail.
      destruct Htail as [(_ & Habs & _) | (t1' & _ & Htail)]; [discriminate Habs |].
      apply map_cut in Htail. destruct Htail as (l1 & x & l2 & _ & _ & Habs & _).
      discriminate Habs.
  - apply block_cut in Htr.
    destruct Htr as [(-> & Heq & ->) | [(p1 & p2 & Hcut & _) | (t1 & -> & Htail)]].
    + inversion Heq; subst n0. split; [exists 0%nat; repeat split |].
      eexists polls, _. split; [reflexivity |]. split; [exact Hpolls |].
      right; left. eauto.
    + destruct (polls_cut _ _ _ _ Hpolls Hcut) as (Habs & _). discriminate Habs.
    + apply cons_app_split in Htail.
      destruct Htail as [(_ & Habs & _) | (t1' & -> & Htail)]; [discriminate Habs |].
      apply app_cons_split in Htail.
      destruct Htail as [(mid & Hcut & _) | (mid & -> & Hcut)].
      * apply map_cut in Hcut. destruct Hcut as (l1 & x & l2 & _ & _ & Habs & _).
        discriminate Habs.
      * destruct (IH _ _ _ Hcut) as ((j & Hnth & Hann & Hrecv) & Hafter).
        split; [| exact Hafter].
        pose proof (block_readers n0 polls imageSet
                      (int_range 0 (getNumberOfImages imageSet)) mid Hpolls) as Hb.
        cbv zeta in Hb. destruct Hb as (Ha & Hr & _).
        exists (S j). rewrite Ha, Hr, Hann. cbn [List.length firstn nth_error].
        repeat split; [exact Hnth | now rewrite Hrecv].
Qed.

(** X1.  In every run the set numbers are announced consecutively from 0, at
    most 100 of them.  When set number [n] is announced, exactly the sets 0
    to [n - 1] have been announced and exactly [n] receptions have succeeded;
    its announcement is followed by calls that return false and then by the
    call that receives it, unless it is the last set announced and nothing is
    received after it.  So every announced set is received once, except
    possibly the last one. *)
Theorem announcements_consecutive (w : World) :
  exists k, (k <= 100)%nat
    /\ announced (fst (main w)) = int_range 0 (Z.of_nat k)
    /\ (List.length (received (fst (main w))) = k
        \/ S (List.length (received (fst (main w)))) = k)
    /\ forall before n after,
         fst (main w) = before ++ Print (ReceivingImageSet n) :: after ->
         announced before = int_range 0 n
         /\ Z.of_nat (List.length (received before)) = n
         /\ exists polls rest,
              after = polls ++ rest /\ Forall timed_out polls
              /\ ((exists imageSet rest',
                     rest = Collect timeout (Ok (Some imageSet)) :: rest')
                  \/ (announced rest = [] /\ received rest = [])).
Proof.
  assert (Hcut : forall before n after,
            fst (main w) = before ++ Print (ReceivingImageSet n) :: after ->
            announced before = int_range 0 n
            /\ Z.of_nat (List.length (received before)) = n
            /\ exists polls rest,
                 after = polls ++ rest /\ Forall timed_out polls
                 /\ ((exists imageSet rest',
                        rest = Collect timeout (Ok (Some imageSet)) :: rest')
                     \/ (announced rest = [] /\ received rest = []))).
  { intros before n after Htr.
    destruct (main_loop_cut w _ _ _ Htr (or_intror (ex_intro _ n eq_refl)))
      as (pre & loop & res & lb & la & Hshape & Hloop & -> & -> & _ & Hpa & Hpr).
    destruct (shape_announce_cut _ _ _ Hshape _ _ _ Hloop)
      as ((j & Hnth & Hann & Hrecv) & polls & rest & -> & Hpolls & Hrest).
    apply nth_error_int_range in Hnth. destruct Hnth as [Hn Hj].
    change (Z.to_nat (100 - 0)) with 100%nat in Hj. rewrite Z.add_0_l in Hn.
    rewrite announced_app, received_app, Hpa, Hpr. cbn [app]. rewrite Hann, Hrecv.
    split; [rewrite firstn_int_range by (rewrite Z.sub_0_r; lia);
            now rewrite Z.add_0_l, Hn |].
    split; [now rewrite Hn |].
    exists polls, (rest ++ epilogue res). rewrite <- app_assoc.
    split; [reflexivity |]. split; [exact Hpolls |].
    destruct Hrest as [[-> ->] | [(imageSet & rest' & ->) | (t & -> & ->)]].
    - right. split; reflexivity.
    - left. exists imageSet, (rest' ++ epilogue res). reflexivity.
    - right. destruct t; split; reflexivity. }
  destruct (main_shape w)
    as [(Ha & Hr & _) | (d & ds & loop & res & _ & _ & Htr & _ & Hshape & _)].
  - exists 0%nat. rewrite Ha, Hr.
    split; [lia |]. split; [reflexivity |]. split; [now left | exact Hcut].
  - destruct (run_readers (d :: ds) d loop res) as (Ha & Hr & _).
    destruct (loop_progress _ _ _ Hshape) as (k & Hk & Hann & Hres).
    rewrite int_range_length in Hk. change (Z.to_nat (100 - 0)) with 100%nat in Hk.
    exists k. split; [exact Hk |]. split; [| split; [| exact Hcut]].
    + rewrite Htr, Ha, Hann. apply firstn_int_range. exact Hk.
    + rewrite Htr, Hr. destruct res as [[] | code | ex |].
      * left. apply Hres.
      * contradiction.
      * exact Hres.
      * right. apply Hres.
Qed.

Lemma announcements_consecutive_witness :
  exists k, (k <= 100)%nat
    /\ announced (fst (main silent_world)) = int_range 0 (Z.of_nat k)
    /\ (List.length (received (fst (main silent_world))) = k
        \/ S (List.length (received (fst (main silent_world)))) = k)
    /\ forall before n after,
         fst (main silent_world) = before ++ Print (ReceivingImageSet n) :: after ->
         announced before = int_range 0 n
         /\ Z.of_nat (List.length (received before)) = n
         /\ exists polls rest,
              after = polls ++ rest /\ Forall timed_out polls
              /\ ((exists imageSet rest',
                     rest = Collect timeout (Ok (Some imageSet)) :: rest')
                  \/ (announced rest = [] /\ received rest = [])).
Proof. exact (announcements_consecutive silent_world). Defined.

(** X2.  A run that does not return is waiting for the set whose number is
    the count of sets received so far: the trace ends with the announcement
    of that set followed only by calls that returned false, and fewer than
    100 sets have been received. *)
Theorem polling_waits_for_next_set (w : World) :
  snd (main w) = Polling ->
  (List.length (received (fst (main w))) < 100)%nat
  /\ exists before polls,
       fst (main w)
       = before
           ++ Print (ReceivingImageSet (Z.of_nat (List.length (received (fst (main w))))))
           :: polls
       /\ Forall timed_out polls.
Proof.
  intros Hst.
  destruct (main_shape w)
    as [(_ & _ & _ & Hnp & _) | (d & ds & loop & res & _ & _ & Htr & Hres & Hshape & _)].
  - now contradiction Hnp.
  - rewrite Hst in Hres.
    destruct res as [[] | code | [ex |] |]; try discriminate Hres.
    destruct (run_readers (d :: ds) d loop Pending) as (_ & Hr & _).
    rewrite Htr, Hr.
    destruct (loop_progress _ _ _ Hshape)
      as (k & _ & _ & _ & before & n & polls & Hloop & Hpolls & Hnth).
    apply nth_error_int_range in Hnth. destruct Hnth as [Hn Hlt].
    change (Z.to_nat (100 - 0)) with 100%nat in Hlt. rewrite Z.add_0_l in Hn.
    split; [exact Hlt |].
    exists ((preamble (d :: ds) ++ [Construct d (Ok tt)]) ++ before), polls.
    split; [| exact Hpolls].
    rewrite <- Hn, Hloop. cbn [epilogue]. rewrite app_nil_r, <- !app_assoc. reflexivity.
Qed.

Lemma polling_waits_for_next_set_witness :
  (List.length (received (fst (main silent_world))) < 100)%nat
  /\ exists before polls,
       fst (main silent_world)
       = before
           ++ Print (ReceivingImageSet
                       (Z.of_nat (List.length (received (fst (main silent_world))))))
           :: polls
       /\ Forall timed_out polls.
Proof. apply (polling_waits_for_next_set silent_world). reflexivity. Defined.

(** X3.  A run that returns 0 without any call having thrown has announced
    the set numbers 0 to 99 and received exactly 100 image sets. *)
Theorem clean_exit_after_100_sets (w : World) :
  snd (main w) = Exit 0 ->
  (forall e, In e (fst (main w)) -> raised e = None) ->
  announced (fst (main w)) = int_range 0 100
  /\ List.length (received (fst (main w))) = 100%nat.
Proof.
  intros Hst Hclean.
  destruct (main_shape w)
    as [(_ & _ & _ & _ & [[_ Hcode] | (e & t & Hin & He)])
       | (d & ds & loop & res & _ & _ & Htr & Hres & Hshape & _)].
  - rewrite Hst in Hcode. discriminate Hcode.
  - rewrite (Hclean e Hin) in He. discriminate He.
  - destruct (run_readers (d :: ds) d loop res) as (Ha & Hr & _).
    rewrite Htr, Ha, Hr.
    destruct (loop_progress _ _ _ Hshape) as (k & Hk & Hann & Hprog).
    destruct res as [[] | code | ex |].
    + destruct Hprog as [-> Hrecv]. rewrite Hann, Hrecv, firstn_all, int_range_length.
      split; reflexivity.
    + contradiction.
    + destruct (loop_throw_last _ _ _ Hshape) as (before & e & -> & He).
      rewrite (Hclean e) in He; [discriminate He |].
      rewrite Htr. apply in_or_app. right. apply in_or_app. left.
      apply in_or_app. right. left. reflexivity.
    + rewrite Hst in Hres. discriminate Hres.
Qed.

Lemma clean_exit_after_100_sets_witness :
  announced (fst (main steady_world)) = int_range 0 100
  /\ List.length (received (fst (main steady_world))) = 100%nat.
Proof.
  apply (clean_exit_after_100_sets steady_world).
  - vm_compute. reflexivity.
  - assert (H : forallb (fun e => match raised e with None => true | Some _ => false end)
                        (fst (main steady_world)) = true) by (vm_compute; reflexivity).
    intros e He. rewrite forallb_forall in H.
    specialize (H e He). now destruct (raised e).
Defined.

(** ** The error line and the transfer object *)

Lemma preamble_plain (devices : list DeviceInfo) (e : event) :
  In e (preamble devices) ->
  (forall msg, e <> Print (ExceptionOccurred msg))
  /\ (forall d r, e <> Construct d r).
Proof.
  unfold preamble. intros [<- | [<- | H]]; [split; discriminate ..|].
  apply in_app_or in H. destruct H as [H | [<- | []]].
  - apply in_map_iff in H. destruct H as (d & <- & _). split; discriminate.
  - split; discriminate.
Qed.

(** The loop prints announcements only and constructs nothing. *)
Lemma loop_plain (l : list Z) (s : list reply) tr s' res (e : event) :
  for_each l receive_image_set s = (tr, s', res) ->
  In e tr ->
  (forall msg, e <> Print (ExceptionOccurred msg))
  /\ (forall d r, e <> Construct d r).
Proof.
  intros Hloop Hin. apply in_split in Hin. destruct Hin as (before & after & Htr).
  pose proof (loop_focus _ _ _ _ _ _ _ _ Hloop Htr) as Hf.
  destruct e as [m | r | d r | t r | i name r]; cbn [focus] in Hf;
    try contradiction; try (split; discriminate).
  destruct Hf as (n & -> & _). split; discriminate.
Qed.

Lemma epilogue_cut (res : result unit) (before after : list event) (e : event) :
  epilogue res = before ++ e :: after ->
  before = [] /\ after = []
  /\ exists ex, res = Throw (std_exception ex) /\ e = Print (ExceptionOccurred (what ex)).
Proof.
  destruct res as [[] | code | [ex |] |]; cbn [epilogue]; intros H;
    try (now destruct before).
  destruct before as [| x before]; [| now destruct before].
  inversion H; subst. eauto.
Qed.

(** X4.  Wherever the line "Exception occurred: ..." stands in a run, it is
    the last event, it comes directly after a call that threw a
    [std::exception], it carries that exception's message, and the run
    returns 0. *)
Theorem error_line_reports_exception (w : World) (before after : list event)
    (msg : string) :
  fst (main w) = before ++ Print (ExceptionOccurred msg) :: after ->
  after = []
  /\ snd (main w) = Exit 0
  /\ exists before' e ex,
       before = before' ++ [e]
       /\ raised e = Some (std_exception ex) /\ what ex = msg.
Proof.
  destruct (main w) as [tr st] eqn:Hmain. cbn [fst snd]. intros Htr.
  destruct (main_cases _ _ _ Hmain)
    as [(t & _ & -> & ->) | [(_ & -> & ->) | [(d & ds & t & _ & _ & -> & ->)
        | (d & ds & loop & s' & res & _ & _ & Hloop & -> & ->)]]].
  - apply cons_app_split in Htr.
    destruct Htr as [(_ & Habs & _) | (b' & -> & Htr)]; [discriminate Habs |].
    apply epilogue_cut in Htr. destruct Htr as (-> & -> & ex & Ht & Hmsg).
    inversion Ht; subst t. inversion Hmsg; subst msg.
    repeat split. exists [], (Discover (Throws (std_exception ex))), ex. repeat split.
  - apply cons_app_split in Htr.
    destruct Htr as [(_ & Habs & _) | (b' & _ & Htr)]; [discriminate Habs |].
    apply cons_app_split in Htr.
    destruct Htr as [(_ & Habs & _) | (b'' & _ & Htr)]; [discriminate Habs |].
    now destruct b''.
  - apply app_cons_split in Htr.
    destruct Htr as [(mid & Hpre & _) | (mid & -> & Htr)].
    + assert (Hin : In (Print (ExceptionOccurred msg)) (preamble (d :: ds)))
        by (rewrite Hpre; apply in_elt).
      apply preamble_plain in Hin. destruct Hin as [Hin _]. now contradiction (Hin msg).
    + apply cons_app_split in Htr.
      destruct Htr as [(_ & Habs & _) | (b' & -> & Htr)]; [discriminate Habs |].
      apply epilogue_cut in Htr. destruct Htr as (-> & -> & ex & Ht & Hmsg).
      inversion Ht; subst t. inversion Hmsg; subst msg.
      repeat split.
      exists (preamble (d :: ds)), (Construct d (Throws (std_exception ex))), ex.
      repeat split.
  - apply main_cut in Htr.
    destruct Htr as [[Hin | Habs] | [(lb & la & Hcut & _) | (ex & -> & Hmsg & -> & ->)]].
    + apply preamble_plain in Hin. destruct Hin as [Hin _]. now contradiction (Hin msg).
    + discriminate Habs.
    + assert (Hin : In (Print (ExceptionOccurred msg)) loop)
        by (rewrite Hcut; apply in_elt).
      destruct (loop_plain _ _ _ _ _ _ Hloop Hin) as [Habs _].
      now contradiction (Habs msg).
    + inversion Hmsg; subst msg. repeat split.
      apply loop_has_shape in Hloop.
      destruct (loop_throw_last _ _ _ Hloop) as (b & e & -> & He).
      exists (preamble (d :: ds) ++ Construct d (Ok tt) :: b), e, ex.
      split; [| split; [exact He | reflexivity]].
      rewrite <- app_assoc. reflexivity.
Qed.

Lemma error_line_reports_exception_witness :
  @nil event = []
  /\ snd (main bad_write_world) = Exit 0
  /\ exists before' e ex,
       firstn 9 (fst (main bad_write_world)) = before' ++ [e]
       /\ raised e = Some (std_exception ex)
       /\ what ex = "Illegal pixel format!"%string.
Proof.
  apply (error_line_reports_exception bad_write_world). reflexivity.
Defined.

(** X5.  The transfer object is constructed at most once in a run: for the
    first device of the discovered list, directly after the device list has
    been printed, and never again afterwards. *)
Theorem transfer_opened_once_on_first_device (w : World)
    (before after : list event) (d : DeviceInfo) (r : outcome unit) :
  fst (main w) = before ++ Construct d r :: after ->
  exists others,
    discoverDevices w = Ok (d :: others)
    /\ r = AsyncTransfer w d
    /\ before = preamble (d :: others)
    /\ forall e, In e after -> forall d' r', e <> Construct d' r'.
Proof.
  destruct (main w) as [tr st] eqn:Hmain. cbn [fst]. intros Htr.
  assert (Hin : In (Construct d r) tr) by (rewrite Htr; apply in_elt).
  assert (Hepi : forall res e, In e (epilogue res) -> forall d' r', e <> Construct d' r').
  { intros res e He. now apply epilogue_plain in He. }
  destruct (main_cases _ _ _ Hmain)
    as [(t & _ & -> & _) | [(_ & -> & _) | [(d0 & ds & t & Hd & Hc & -> & _)
        | (d0 & ds & loop & s' & res & Hd & Hc & Hloop & -> & _)]]].
  - destruct Hin as [H | Hin]; [discriminate H |]. now contradiction (Hepi _ _ Hin d r).
  - destruct Hin as [H | [H | []]]; discriminate H.
  - clear Hin. apply app_cons_split in Htr.
    destruct Htr as [(mid & Hpre & _) | (mid & -> & Htr)].
    + assert (Hin : In (Construct d r) (preamble (d0 :: ds))) by (rewrite Hpre; apply in_elt).
      apply preamble_plain in Hin. destruct Hin as [_ Hin]. now contradiction (Hin d r).
    + apply cons_app_split in Htr.
      destruct Htr as [(-> & Heq & ->) | (mid' & -> & Htr)].
      * inversion Heq; subst. exists ds. rewrite app_nil_r.
        split; [assumption |]. split; [now symmetry |]. split; [reflexivity |].
        exact (Hepi (Throw t)).
      * assert (Hin : In (Construct d r) (epilogue (Throw t)))
          by (rewrite Htr; apply in_elt).
        now contradiction (Hepi _ _ Hin d r).
  - clear Hin.
    assert (Hlater : forall e, In e (loop ++ epilogue res) ->
                     forall d' r', e <> Construct d' r').
    { intros e He. apply in_app_or in He. destruct He as [He | He].
      - now destruct (loop_plain _ _ _ _ _ _ Hloop He).
      - exact (Hepi res e He). }
    apply app_cons_split in Htr.
    destruct Htr as [(mid & Hpre & _) | (mid & -> & Htr)].
    + assert (Hin : In (Construct d r) (preamble (d0 :: ds))) by (rewrite Hpre; apply in_elt).
      apply preamble_plain in Hin. destruct Hin as [_ Hin]. now contradiction (Hin d r).
    + apply cons_app_split in Htr.
      destruct Htr as [(-> & Heq & ->) | (mid' & -> & Htr)].
      * inversion Heq; subst. exists ds. rewrite app_nil_r. repeat split; auto.
      * assert (Hin : In (Construct d r) (loop ++ epilogue res))
          by (rewrite Htr; apply in_elt).
        now contradiction (Hlater _ Hin d r).
Qed.

Lemma transfer_opened_once_on_first_device_witness :
  exists others,
    discoverDevices bad_write_world = Ok (camera :: others)
    /\ Ok tt = AsyncTransfer bad_write_world camera
    /\ firstn 4 (fst (main bad_write_world)) = preamble (camera :: others)
    /\ forall e, In e (skipn 5 (fst (main bad_write_world))) ->
         forall d' r', e <> Construct d' r'.
Proof.
  apply (transfer_opened_once_on_first_device bad_write_world). reflexivity.
Defined.

(** ** Writes, set by set *)

Lemma writes_cut (imageSet : ImageSet) (n K : Z) (t1 t2 : list event)
    (i : Z) (name : string) (r : outcome unit) :
  (forall j, 0 <= j < K - 1 -> writePgmFile imageSet j (fileName j n) = Ok tt) ->
  map (write_ev imageSet n) (int_range 0 K) = t1 ++ WritePgm i name r :: t2 ->
  t1 = map (fun j => WritePgm j (fileName j n) (Ok tt)) (int_range 0 i)
  /\ 0 <= i < K /\ name = fileName i n /\ r = writePgmFile imageSet i name.
Proof.
  intros Hok H. apply map_cut in H.
  destruct H as (l1 & x & l2 & Hcut & -> & Hx & _).
  inversion Hx; subst. apply int_range_cut in Hcut. destruct Hcut as [-> Hbound].
  repeat split; try lia.
  apply map_ext_in. intros j Hj. apply in_int_range in Hj.
  unfold write_ev. rewrite Hok by lia. reflexivity.
Qed.

Lemma shape_write_cut (l : list Z) (tr : list event) (res : result unit) :
  loop_shape l tr res ->
  forall before i name r after,
  tr = before ++ WritePgm i name r :: after ->
  exists before' n polls imageSet,
    before = before' ++ Print (ReceivingImageSet n) :: polls
               ++ Collect timeout (Ok (Some imageSet))
               :: map (fun j => WritePgm j (fileName j n) (Ok tt)) (int_range 0 i)
    /\ Forall timed_out polls /\ In n l
    /\ 0 <= i < getNumberOfImages imageSet
    /\ name = fileName i n /\ r = writePgmFile imageSet i name.
Proof.
  induction 1 as [| n l polls Hpolls | n l polls ex Hpolls
                  | n l polls imageSet i0 ex Hpolls Hi Hok Hthrow
                  | n l polls imageSet tr res Hpolls Hok Hshape IH];
    intros before i name r after Htr.
  - now destruct before.
  - rewrite <- (app_nil_r polls) in Htr. apply block_cut in Htr.
    destruct Htr as [(_ & Habs & _) | [(p1 & p2 & Hcut & _) | (t1 & _ & Habs)]].
    + discriminate Habs.
    + destruct (polls_cut _ _ _ _ Hpolls Hcut) as (Habs & _). discriminate Habs.
    + now destruct t1.
  - apply block_cut in Htr.
    destruct Htr as [(_ & Habs & _) | [(p1 & p2 & Hcut & _) | (t1 & _ & Htail)]].
    + discriminate Habs.
    + destruct (polls_cut _ _ _ _ Hpolls Hcut) as (Habs & _). discriminate Habs.
    + apply cons_app_split in Htail.
      destruct Htail as [(_ & Habs & _) | (t1' & _ & Habs)]; [discriminate Habs |].
      now destruct t1'.
  - apply block_cut in Htr.
    destruct Htr as [(_ & Habs & _) | [(p1 & p2 & Hcut & _) | (t1 & -> & Htail)]].
    + discriminate Habs.
    + destruct (polls_cut _ _ _ _ Hpolls Hcut) as (Habs & _). discriminate Habs.
    + apply cons_app_split in Htail.
      destruct Htail as [(_ & Habs & _) | (t1' & -> & Htail)]; [discriminate Habs |].
      apply writes_cut in Htail.
      * destruct Htail as (-> & Hb & -> & ->).
        exists [], n, polls, imageSet. repeat split; try assumption; try lia.
        left; reflexivity.
      * intros j Hj. apply Hok. lia.
  - apply block_cut in Htr.
    destruct Htr as [(_ & Habs & _) | [(p1 & p2 & Hcut & _) | (t1 & -> & Htail)]].
    + discriminate Habs.
    + destruct (polls_cut _ _ _ _ Hpolls Hcut) as (Habs & _). discriminate Habs.
    + apply cons_app_split in Htail.
      destruct Htail as [(_ & Habs & _) | (t1' & -> & Htail)]; [discriminate Habs |].
      apply app_cons_split in Htail.
      destruct Htail as [(mid & Hcut & _) | (mid & -> & Hcut)].
      * apply writes_cut in Hcut.
        -- destruct Hcut as (-> & Hb & -> & ->).
           exists [], n, polls, imageSet. repeat split; try assumption; try lia.
           left; reflexivity.
        -- intros j Hj. apply Hok. lia.
      * destruct (IH _ _ _ _ _ Hcut)
          as (before' & m & polls' & imageSet' & -> & Hpolls' & Hm & Hb & -> & ->).
        exists (Print (ReceivingImageSet n) :: polls
                  ++ Collect timeout (Ok (Some imageSet))
                  :: map (write_ev imageSet n) (int_range 0 (getNumberOfImages imageSet))
                  ++ before'), m, polls', imageSet'.
        split; [| repeat split; try assumption; try lia; now right].
        cbn [app]. rewrite <- !app_assoc. cbn [app]. now rewrite <- ?app_assoc.
Qed.

(** X6.  Every call of [writePgmFile], for an index [i], comes directly after
    the reception of its set and the calls for the indices 0 to [i - 1] of
    that set, all of which returned; [i] is an index of the set, and the name
    passed is the one formatted from [i] and the set number. *)
Theorem writes_in_index_order (w : World) (before after : list event)
    (i : Z) (name : string) (r : outcome unit) :
  fst (main w) = before ++ WritePgm i name r :: after ->
  exists before' imgNum polls imageSet,
    before = before' ++ Print (ReceivingImageSet imgNum) :: polls
               ++ Collect timeout (Ok (Some imageSet))
               :: map (fun j => WritePgm j (fileName j imgNum) (Ok tt)) (int_range 0 i)
    /\ Forall timed_out polls /\ 0 <= imgNum < 100
    /\ 0 <= i < getNumberOfImages imageSet
    /\ name = fileName i imgNum /\ r = writePgmFile imageSet i name.
Proof.
  intros Htr.
  destruct (main_loop_cut w _ _ _ Htr (or_introl eq_refl))
    as (pre & loop & res & lb & la & Hshape & Hcut & -> & _).
  destruct (shape_write_cut _ _ _ Hshape _ _ _ _ _ Hcut)
    as (before' & n & polls & imageSet & -> & Hpolls & Hn & Hi & -> & ->).
  exists (pre ++ before'), n, polls, imageSet. rewrite <- app_assoc.
  apply in_int_range in Hn. repeat split; try assumption; lia.
Qed.

Lemma writes_in_index_order_witness :
  exists before' imgNum polls imageSet,
    firstn 9 (fst (main silent_world))
    = before' ++ Print (ReceivingImageSet imgNum) :: polls
        ++ Collect timeout (Ok (Some imageSet))
        :: map (fun j => WritePgm j (fileName j imgNum) (Ok tt)) (int_range 0 1)
    /\ Forall timed_out polls /\ 0 <= imgNum < 100
    /\ 0 <= 1 < getNumberOfImages imageSet
    /\ "image001_0.pgm"%string = fileName 1 imgNum
    /\ Ok tt = writePgmFile imageSet 1 "image001_0.pgm".
Proof.
  apply (writes_in_index_order silent_world _ (skipn 10 (fst (main silent_world)))).
  reflexivity.
Defined.

Lemma shape_reception_cut (l : list Z) (tr : list event) (res : result unit) :
  loop_shape l tr res ->
  forall before t imageSet after,
  tr = before ++ Collect t (Ok (Some imageSet)) :: after ->
  exists n K rest,
    after = map (write_ev imageSet n) (int_range 0 K) ++ rest
    /\ ((K = getNumberOfImages imageSet
         /\ ((rest = [] /\ res = Normal tt)
             \/ exists m rest', rest = Print (ReceivingImageSet m) :: rest'))
        \/ (0 < K <= getNumberOfImages imageSet /\ rest = []
            /\ exists ex, res = Throw ex)).
Proof.
  induction 1 as [| n l polls Hpolls | n l polls ex Hpolls
                  | n l polls imageSet0 i0 ex Hpolls Hi Hok Hthrow
                  | n l polls imageSet0 tr res Hpolls Hok Hshape IH];
    intros before t imageSet after Htr.
  - now destruct before.
  - rewrite <- (app_nil_r polls) in Htr. apply block_cut in Htr.
    destruct Htr as [(_ & Habs & _) | [(p1 & p2 & Hcut & _) | (t1 & _ & Habs)]].
    + discriminate Habs.
    + destruct (polls_cut _ _ _ _ Hpolls Hcut) as (Habs & _). discriminate Habs.
    + now destruct t1.
  - apply block_cut in Htr.
    destruct Htr as [(_ & Habs & _) | [(p1 & p2 & Hcut & _) | (t1 & _ & Htail)]].
    + discriminate Habs.
    + destruct (polls_cut _ _ _ _ Hpolls Hcut) as (Habs & _). discriminate Habs.
    + apply cons_app_split in Htail.
      destruct Htail as [(_ & Habs & _) | (t1' & _ & Habs)]; [discriminate Habs |].
      now destruct t1'.
  - apply block_cut in Htr.
    destruct Htr as [(_ & Habs & _) | [(p1 & p2 & Hcut & _) | (t1 & _ & Htail)]].
    + discriminate Habs.
    + destruct (polls_cut _ _ _ _ Hpolls Hcut) as (Habs & _). discriminate Habs.
    + apply cons_app_split in Htail.
      destruct Htail as [(_ & Heq & ->) | (t1' & _ & Htail)].
      * inversion Heq; subst. exists n, (i0 + 1), []. rewrite app_nil_r.
        split; [reflexivity |]. right. split; [lia |]. split; [reflexivity | eauto].
      * apply map_cut in Htail. destruct Htail as (l1 & x & l2 & _ & _ & Habs & _).
        discriminate Habs.
  - apply block_cut in Htr.
    destruct Htr as [(_ & Habs & _) | [(p1 & p2 & Hcut & _) | (t1 & _ & Htail)]].
    + discriminate Habs.
    + destruct (polls_cut _ _ _ _ Hpolls Hcut) as (Habs & _). discriminate Habs.
    + apply cons_app_split in Htail.
      destruct Htail as [(_ & Heq & ->) | (t1' & _ & Htail)].
      * inversion Heq; subst. exists n, (getNumberOfImages imageSet0), tr.
        split; [reflexivity |]. left. split; [reflexivity |].
        eapply shape_head; eassumption.
      * apply app_cons_split in Htail.
        destruct Htail as [(mid & Hcut & _) | (mid & _ & Hcut)].
        -- apply map_cut in Hcut. destruct Hcut as (l1 & x & l2 & _ & _ & Habs & _).
           discriminate Habs.
        -- eapply IH; eassumption.
Qed.

(** X7.  A received set that holds no image (its count is zero or negative)
    causes no call of [writePgmFile]: after its reception the run ends or goes
    on with the announcement of another set. *)
Theorem empty_set_writes_nothing (w : World) (imgNum : Z) (imageSet : ImageSet)
    (after : list event) :
  receives (fst (main w)) imgNum imageSet after ->
  getNumberOfImages imageSet <= 0 ->
  after = [] \/ exists m rest, after = Print (ReceivingImageSet m) :: rest.
Proof.
  intros (before0 & polls0 & Htr & _) Hnone.
  rewrite app_comm_cons, app_assoc in Htr.
  destruct (main_loop_cut w _ _ _ Htr (or_introl eq_refl))
    as (pre & loop & res & lb & la & Hshape & Hcut & _ & -> & _).
  destruct (shape_reception_cut _ _ _ Hshape _ _ _ _ Hcut)
    as (n & K & rest & -> & [[-> Hrest] | [HK _]]); [| lia].
  rewrite int_range_empty by lia. cbn [map app].
  destruct Hrest as [[-> ->] | (m & rest' & ->)].
  - left. reflexivity.
  - right. exists m, (rest' ++ epilogue res). reflexivity.
Qed.

Lemma empty_set_writes_nothing_witness :
  skipn 7 (fst (main empty_set_world)) = []
  \/ exists m rest, skipn 7 (fst (main empty_set_world)) = Print (ReceivingImageSet m) :: rest.
Proof.
  apply (empty_set_writes_nothing empty_set_world 0 noImages).
  - exists (firstn 5 (fst (main empty_set_world))), [].
    split; [reflexivity | constructor].
  - cbn. lia.
Defined.

(** ** The files of a run *)

Lemma written_in (tr : list event) (i : Z) (name : string) (r : outcome unit) :
  In (WritePgm i name r) tr -> In name (written tr).
Proof.
  intros H. unfold written. apply in_flat_map.
  exists (WritePgm i name r). split; [exact H | left; reflexivity].
Qed.

Lemma received_in (tr : list event) (imageSet : ImageSet) :
  In imageSet (received tr) -> exists t, In (Collect t (Ok (Some imageSet))) tr.
Proof.
  unfold received. intros H. apply in_flat_map in H. destruct H as (e & He & Hin).
  destruct e as [m | r | d r | t [[imageSet' |] | ex] | i name r]; try contradiction.
  destruct Hin as [<- | []]. eauto.
Qed.

Lemma shape_write_count (l : list Z) (tr : list event) (res : result unit) :
  loop_shape l tr res ->
  (forall i name ex, ~ In (WritePgm i name (Throws ex)) tr) ->
  List.length (written tr)
  = list_sum (map (fun imageSet => Z.to_nat (getNumberOfImages imageSet)) (received tr)).
Proof.
  induction 1 as [| n l polls Hpolls | n l polls ex Hpolls
                  | n l polls imageSet i ex Hpolls Hi Hok Hthrow
                  | n l polls imageSet tr res Hpolls Hok Hshape IH];
    intros Hquiet.
  - reflexivity.
  - destruct (failed_block_readers n polls [] Hpolls (or_introl eq_refl)) as (_ & Hr & Hw).
    rewrite app_nil_r in Hr, Hw. now rewrite Hr, Hw.
  - destruct (failed_block_readers n polls _ Hpolls
                (or_intror (ex_intro _ ex eq_refl))) as (_ & Hr & Hw).
    now rewrite Hr, Hw.
  - exfalso. apply (Hquiet i (fileName i n) ex).
    right. apply in_or_app. right. right.
    rewrite int_range_snoc, map_app by lia. apply in_or_app. right.
    cbn [map]. left. unfold write_ev. now rewrite Hthrow.
  - pose proof (block_readers n polls imageSet
                  (int_range 0 (getNumberOfImages imageSet)) tr Hpolls) as Hb.
    cbv zeta in Hb. destruct Hb as (_ & Hr & Hw).
    rewrite Hr, Hw, length_app, length_map, int_range_length, Z.sub_0_r. cbn [map].
    rewrite IH; [reflexivity |].
    intros i name ex Hin. apply (Hquiet i name ex).
    right. apply in_or_app. right. right. apply in_or_app. now right.
Qed.

(** X8.  Unless a call of [writePgmFile] throws, the number of files a run
    has written is the total number of images of the sets it has received,
    a set with a negative count contributing nothing. *)
Theorem files_written_count (w : World) :
  (forall i name ex, ~ In (WritePgm i name (Throws ex)) (fst (main w))) ->
  List.length (written (fst (main w)))
  = list_sum (map (fun imageSet => Z.to_nat (getNumberOfImages imageSet))
                  (received (fst (main w)))).
Proof.
  intros Hquiet.
  destruct (main_shape w)
    as [(_ & Hr & Hw & _) | (d & ds & loop & res & _ & _ & Htr & _ & Hshape & _)].
  - now rewrite Hr, Hw.
  - destruct (run_readers (d :: ds) d loop res) as (_ & Hr & Hw).
    rewrite Htr, Hr, Hw. apply (shape_write_count _ _ _ Hshape).
    intros i name ex Hin. apply (Hquiet i name ex).
    rewrite Htr. apply in_or_app. right. apply in_or_app. now left.
Qed.

Lemma files_written_count_witness :
  List.length (written (fst (main empty_set_world)))
  = list_sum (map (fun imageSet => Z.to_nat (getNumberOfImages imageSet))
                  (received (fst (main empty_set_world)))).
Proof.
  apply (files_written_count empty_set_world).
  intros i name ex H. vm_compute in H.
  repeat (destruct H as [H | H]; [discriminate H |]). exact H.
Defined.

Lemma fileName_pair_inj (p q : Z * Z) :
  0 <= fst p <= INT_MAX -> 0 <= snd p < 100 ->
  0 <= fst q <= INT_MAX -> 0 <= snd q < 100 ->
  fileName (fst p) (snd p) = fileName (fst q) (snd q) -> p = q.
Proof.
  destruct p as [i1 n1], q as [i2 n2]. cbn [fst snd]. intros Hi1 Hn1 Hi2 Hn2 H.
  rewrite !fileName_eq in H by lia.
  apply string_of_list_ascii_inj, format_fileName_inj in H; try lia.
  destruct H; now subst.
Qed.

(** The names written by the loop come from pairwise distinct pairs of an
    index and a set number. *)
Lemma shape_written_pairs (l : list Z) (tr : list event) (res : result unit) :
  loop_shape l tr res ->
  NoDup l ->
  (forall imageSet, In imageSet (received tr) -> getNumberOfImages imageSet <= INT_MAX) ->
  exists pairs,
    written tr = map (fun p => fileName (fst p) (snd p)) pairs
    /\ NoDup pairs
    /\ forall p, In p pairs -> 0 <= fst p <= INT_MAX /\ In (snd p) l.
Proof.
  induction 1 as [| n l polls Hpolls | n l polls ex Hpolls
                  | n l polls imageSet i ex Hpolls Hi Hok Hthrow
                  | n l polls imageSet tr res Hpolls Hok Hshape IH];
    intros Hnodup Hsized.
  - exists []. split; [reflexivity | split; [constructor | intros p []]].
  - destruct (failed_block_readers n polls [] Hpolls (or_introl eq_refl)) as (_ & _ & Hw).
    rewrite app_nil_r in Hw. exists []. rewrite Hw.
    split; [reflexivity | split; [constructor | intros p []]].
  - destruct (failed_block_readers n polls _ Hpolls
                (or_intror (ex_intro _ ex eq_refl))) as (_ & _ & Hw).
    exists []. rewrite Hw. split; [reflexivity | split; [constructor | intros p []]].
  - pose proof (block_readers n polls imageSet (int_range 0 (i + 1)) [] Hpolls) as Hb.
    cbv zeta in Hb. rewrite !app_nil_r in Hb. destruct Hb as (_ & Hr & Hw).
    rewrite Hr in Hsized. specialize (Hsized imageSet (or_introl eq_refl)).
    exists (map (fun j => (j, n)) (int_range 0 (i + 1))). rewrite Hw, map_map.
    split; [reflexivity |]. split.
    + apply NoDup_map_NoDup_ForallPairs; [| apply int_range_NoDup].
      intros x y _ _ Heq. now inversion Heq.
    + intros p Hp. apply in_map_iff in Hp. destruct Hp as (j & <- & Hj).
      apply in_int_range in Hj. cbn [fst snd]. split; [lia | left; reflexivity].
  - pose proof (block_readers n polls imageSet
                  (int_range 0 (getNumberOfImages imageSet)) tr Hpolls) as Hb.
    cbv zeta in Hb. destruct Hb as (_ & Hr & Hw).
    rewrite Hr in Hsized. apply NoDup_cons_iff in Hnodup. destruct Hnodup as [Hn Hnodup].
    destruct (IH Hnodup (fun x Hx => Hsized x (or_intror Hx)))
      as (pairs & Hpairs & Hnd & Hb).
    specialize (Hsized imageSet (or_introl eq_refl)).
    exists (map (fun j => (j, n)) (int_range 0 (getNumberOfImages imageSet)) ++ pairs).
    rewrite Hw, Hpairs, map_app, map_map. split; [reflexivity |]. split.
    + apply NoDup_app; [| exact Hnd |].
      * apply NoDup_map_NoDup_ForallPairs; [| apply int_range_NoDup].
        intros x y _ _ Heq. now inversion Heq.
      * intros p Hp Hp'. apply in_map_iff in Hp. destruct Hp as (j & <- & _).
        apply Hb in Hp'. cbn [snd] in Hp'. now apply Hn.
    + intros p Hp. apply in_app_or in Hp. destruct Hp as [Hp | Hp].
      * apply in_map_iff in Hp. destruct Hp as (j & <- & Hj).
        apply in_int_range in Hj. cbn [fst snd]. split; [lia | left; reflexivity].
      * destruct (Hb p Hp) as [Hi Hl]. split; [exact Hi | now right].
Qed.

(** X9.  When the image counts of the received sets are [int] values, no two
    calls of [writePgmFile] of a run are given the same file name: a run
    never overwrites a file it has written. *)
Theorem written_names_distinct (w : World) :
  Forall int_sized (collectReceivedImageSet w) ->
  NoDup (written (fst (main w))).
Proof.
  intros Hsized.
  destruct (main_shape w)
    as [(_ & _ & Hw & _)
       | (d & ds & loop & res & _ & _ & Htr & _ & Hshape & Hreplies)].
  - rewrite Hw. constructor.
  - destruct (run_readers (d :: ds) d loop res) as (_ & _ & Hw). rewrite Htr, Hw.
    destruct (shape_written_pairs _ _ _ Hshape (int_range_NoDup 0 100))
      as (pairs & -> & Hnd & Hb).
    + intros imageSet Hin. apply received_in in Hin. destruct Hin as (t & Hin).
      apply Hreplies in Hin. rewrite Forall_forall in Hsized.
      exact (Hsized _ Hin).
    + apply NoDup_map_NoDup_ForallPairs; [| exact Hnd].
      intros p q Hp Hq. destruct (Hb p Hp) as [Hi1 Hn1], (Hb q Hq) as [Hi2 Hn2].
      apply in_int_range in Hn1, Hn2. now apply fileName_pair_inj.
Qed.

Lemma written_names_distinct_witness : NoDup (written (fst (main slow_world))).
Proof.
  apply (written_names_distinct slow_world).
  apply Forall_forall. intros r Hr. apply in_concat in Hr.
  destruct Hr as (l & Hl & Hr). apply repeat_spec in Hl. subst l.
  destruct Hr as [<- | [<- | []]]; cbn; [exact I | unfold INT_MAX; lia].
Defined.

(** X10.  Every call of [collectReceivedImageSet] and of [writePgmFile]
    happens in a run that discovered a device, after the device list was
    printed and the transfer object for the first device was constructed
    without an exception: when the construction throws, nothing is polled for
    and nothing is written. *)
Theorem reception_needs_transfer (w : World) (before after : list event) (e : event) :
  fst (main w) = before ++ e :: after ->
  is_collect e || is_write e = true ->
  exists device0 others rest,
    discoverDevices w = Ok (device0 :: others)
    /\ AsyncTransfer w device0 = Ok tt
    /\ before = preamble (device0 :: others) ++ Construct device0 (Ok tt) :: rest.
Proof.
  destruct (main w) as [tr st] eqn:Hmain. cbn [fst]. intros Htr He.
  assert (Hin : In e tr) by (rewrite Htr; apply in_elt).
  destruct (main_cases _ _ _ Hmain)
    as [(t & _ & -> & _) | [(_ & -> & _) | [(d & ds & t & _ & _ & -> & _)
        | (d & ds & loop & s' & res & Hd & Hc & _ & -> & _)]]].
  - destruct Hin as [<- | Hin]; [discriminate He |].
    apply epilogue_plain in Hin as (Hcol & Hwr & _). rewrite Hcol, Hwr in He.
    discriminate He.
  - destruct Hin as [<- | [<- | []]]; discriminate He.
  - apply in_app_or in Hin. destruct Hin as [Hin | [<- | Hin]];
      try discriminate He.
    + apply preamble_events in Hin as (Hcol & Hwr & _). rewrite Hcol, Hwr in He.
      discriminate He.
    + apply epilogue_plain in Hin as (Hcol & Hwr & _). rewrite Hcol, Hwr in He.
      discriminate He.
  - clear Hin. apply main_cut in Htr.
    destruct Htr as [[Hin | ->] | [(lb & la & _ & -> & _) | (ex & _ & -> & _)]];
      try discriminate He.
    + apply preamble_events in Hin as (Hcol & Hwr & _). rewrite Hcol, Hwr in He.
      discriminate He.
    + exists d, ds, lb. rewrite <- app_assoc. auto.
Qed.

Lemma reception_needs_transfer_witness :
  exists device0 others rest,
    discoverDevices silent_world = Ok (device0 :: others)
    /\ AsyncTransfer silent_world device0 = Ok tt
    /\ firstn 8 (fst (main silent_world))
       = preamble (device0 :: others) ++ Construct device0 (Ok tt) :: rest.
Proof.
  apply (reception_needs_transfer silent_world _ (skipn 9 (fst (main silent_world)))
           (WritePgm 0 "image000_0.pgm" (Ok tt)));
    reflexivity.
Defined.

(** * The claims about [main] *)

(** ** Exit code and exceptions *)

(** C10.  When discovery returns an empty device list, the run consists of
    the discovery call and the line "No devices discovered!" on standard
    output, and [main] returns -1: no [AsyncTransfer] is constructed, nothing
    is polled for and nothing is written. *)
Theorem no_devices_run (w : World) :
  discoverDevices w = Ok [] ->
  main w = ([Discover (Ok []); Print NoDevicesDiscovered], Exit (-1))
  /\ text NoDevicesDiscovered = (cout, ("No devices discovered!" ++ endl)%string)
  /\ forall e, In e (fst (main w)) ->
       match e with
       | Construct _ _ | Collect _ _ | WritePgm _ _ _ => False
       | _ => True
       end.
Proof.
  intros Hd. rewrite main_run, Hd. split; [reflexivity |]. split; [reflexivity |].
  intros e [<- | [<- | []]]; exact I.
Qed.

Lemma no_devices_run_witness :
  main no_device_world = ([Discover (Ok []); Print NoDevicesDiscovered], Exit (-1))
  /\ text NoDevicesDiscovered = (cout, ("No devices discovered!" ++ endl)%string)
  /\ forall e, In e (fst (main no_device_world)) ->
       match e with
       | Construct _ _ | Collect _ _ | WritePgm _ _ _ => False
       | _ => True
       end.
Proof. apply (no_devices_run no_device_world). reflexivity. Defined.

(** C2.  A run of [main] that returns, returns -1 exactly when discovery
    gave an empty device list, and then the "No devices discovered!" line was
    printed; every other returning run returns 0, the runs in which the
    [catch] block printed included. *)
Theorem exit_code (w : World) (tr : list event) (code : Z) :
  main w = (tr, Exit code) ->
  (code = -1 <-> discoverDevices w = Ok [])
  /\ (code = -1 -> In (Print NoDevicesDiscovered) tr)
  /\ (code <> -1 -> code = 0)
  /\ (forall msg, In (Print (ExceptionOccurred msg)) tr -> code = 0).
Proof.
  intros Hmain.
  destruct (main_cases _ _ _ Hmain)
    as [(t & Hd & -> & Hst) | [(Hd & -> & Hst) | [(d & ds & t & Hd & _ & -> & Hst)
        | (d & ds & loop & s' & res & Hd & _ & _ & -> & Hst)]]].
  - assert (code = 0) by (destruct t; inversion Hst; reflexivity). subst code.
    rewrite Hd. repeat split; try discriminate; auto.
  - inversion Hst; subst. rewrite Hd. repeat split; auto.
    + intros _. right; left; reflexivity.
    + intros Hne. now contradiction Hne.
    + intros msg [H | [H | []]]; discriminate H.
  - assert (code = 0) by (destruct t; inversion Hst; reflexivity). subst code.
    rewrite Hd. repeat split; try discriminate; auto.
  - assert (code = 0) by (destruct res as [| | [|] |]; inversion Hst; reflexivity).
    subst code. rewrite Hd. repeat split; try discriminate; auto.
Qed.

Lemma exit_code_witness :
  (0 = -1 <-> discoverDevices bad_write_world = Ok [])
  /\ (0 = -1 -> In (Print NoDevicesDiscovered) (fst (main bad_write_world)))
  /\ (0 <> -1 -> 0 = 0)
  /\ (forall msg, In (Print (ExceptionOccurred msg)) (fst (main bad_write_world)) -> 0 = 0).
Proof. apply (exit_code bad_write_world). reflexivity. Defined.

(** After a call that throws, a run only executes the [catch] block, if the
    thrown object is a [std::exception], and ends. *)
Lemma raise_ends_run (w : World) (tr : list event) (st : status)
    (before after : list event) (e : event) (t : thrown) :
  main w = (tr, st) ->
  tr = before ++ e :: after -> raised e = Some t ->
  after = epilogue (Throw t) /\ st = loop_status (Throw t).
Proof.
  intros Hmain Htr He.
  destruct (main_cases _ _ _ Hmain)
    as [(t0 & _ & -> & ->) | [(_ & -> & ->) | [(d & ds & t0 & _ & _ & -> & ->)
        | (d & ds & loop & s' & res & _ & _ & Hloop & -> & ->)]]].
  - apply cons_app_split in Htr.
    destruct Htr as [(-> & -> & ->) | (b' & -> & Htr)].
    + inversion He; subst. auto.
    + assert (Hin : In e (epilogue (Throw t0))) by (rewrite Htr; apply in_elt).
      apply epilogue_plain in Hin as (_ & _ & Hr & _). congruence.
  - apply cons_app_split in Htr.
    destruct Htr as [(-> & -> & ->) | (b' & -> & Htr)]; [discriminate He |].
    apply cons_app_split in Htr.
    destruct Htr as [(-> & -> & ->) | (b'' & -> & Htr)]; [discriminate He |].
    now destruct b''.
  - apply app_cons_split in Htr.
    destruct Htr as [(mid & Hpre & _) | (mid & -> & Htr)].
    + assert (Hin : In e (preamble (d :: ds))) by (rewrite Hpre; apply in_elt).
      apply preamble_events in Hin as (_ & _ & Hr & _). congruence.
    + apply cons_app_split in Htr.
      destruct Htr as [(-> & -> & ->) | (b' & -> & Htr)].
      * inversion He; subst. auto.
      * assert (Hin : In e (epilogue (Throw t0))) by (rewrite Htr; apply in_elt).
        apply epilogue_plain in Hin as (_ & _ & Hr & _). congruence.
  - apply main_cut in Htr.
    destruct Htr as [[Hin | ->] | [(lb & la & Hcut & -> & ->) | (ex0 & _ & -> & _)]];
      try discriminate He.
    + apply preamble_events in Hin as (_ & _ & Hr & _). congruence.
    + pose proof (loop_focus _ _ _ _ _ _ _ _ Hloop Hcut) as Hf.
      destruct e as [m | r | d0 r | q r | i name r]; try discriminate He;
        cbn [focus] in Hf; try contradiction.
      * destruct r as [[imageSet |] | t0]; try discriminate He.
        inversion He; subst t0.
        destruct Hf as (_ & b' & n & polls & _ & _ & _ & -> & ->). auto.
      * destruct r as [[] | t0]; try discriminate He.
        inversion He; subst t0.
        destruct Hf as (b' & n & polls & imageSet & done & _ & _ & _ & _ & _ & Hthrow).
        destruct (Hthrow t eq_refl) as [-> ->]. auto.
Qed.

(** C3, as the code has it.  A [std::exception] never leaves [main]:
    whenever a call into the SDK (device enumeration, construction of the
    transfer object, reception, or writing a file) throws one, the only
    thing that still happens is the [catch] block printing "Exception
    occurred: " and the exception's message to standard error, and [main]
    returns 0.  A thrown object of another type is not matched by the handler:
    nothing more happens and the object leaves [main]. *)
Theorem exceptions_caught (w : World) (tr : list event) (st : status) :
  main w = (tr, st) ->
  (forall ex, st <> Uncaught (std_exception ex))
  /\ (forall before e after ex,
        tr = before ++ e :: after -> raised e = Some (std_exception ex) ->
        after = [Print (ExceptionOccurred (what ex))]
        /\ st = Exit 0
        /\ text (ExceptionOccurred (what ex))
           = (cerr, ("Exception occurred: " ++ what ex ++ endl)%string))
  /\ (forall before e after,
        tr = before ++ e :: after -> raised e = Some other_object ->
        after = [] /\ st = Uncaught other_object).
Proof.
  intros Hmain. split; [| split].
  - intros ex Hst.
    destruct (main_cases _ _ _ Hmain)
      as [(t & _ & _ & ->) | [(_ & _ & ->) | [(d & ds & t & _ & _ & _ & ->)
          | (d & ds & loop & s' & res & _ & _ & _ & _ & ->)]]].
    + destruct t; discriminate Hst.
    + discriminate Hst.
    + destruct t; discriminate Hst.
    + destruct res as [| | [|] |]; discriminate Hst.
  - intros before e after ex Htr He.
    destruct (raise_ends_run _ _ _ _ _ _ _ Hmain Htr He) as [-> ->]. auto.
  - intros before e after Htr He.
    destruct (raise_ends_run _ _ _ _ _ _ _ Hmain Htr He) as [-> ->]. auto.
Qed.

Lemma exceptions_caught_witness :
  ((forall ex, Exit 0 <> Uncaught (std_exception ex))
   /\ [Print (ExceptionOccurred "Illegal pixel format!")]
      = [Print (ExceptionOccurred (what pixel_format_error))]
   /\ Exit 0 = Exit 0
   /\ text (ExceptionOccurred (what pixel_format_error))
      = (cerr, ("Exception occurred: " ++ what pixel_format_error ++ endl)%string))
  /\ (@nil event = [] /\ Uncaught other_object = Uncaught other_object).
Proof.
  split.
  - destruct (exceptions_caught bad_write_world _ _ eq_refl) as (Hcaught & Hafter & _).
    split; [exact Hcaught |].
    apply (Hafter (firstn 8 (fst (main bad_write_world)))
                  (WritePgm 0 "image000_0.pgm"
                            (Throws (std_exception pixel_format_error))));
      reflexivity.
  - destruct (exceptions_caught foreign_world _ _ eq_refl) as (_ & _ & Hescape).
    apply (Hescape (firstn 7 (fst (main foreign_world)))
                   (Collect timeout (Throws other_object)));
      reflexivity.
Defined.

(** C3 as stated fails: the second call of [collectReceivedImageSet] throws
    an object that is not a [std::exception]; the handler does not match it,
    nothing is printed to standard error and the object leaves [main]. *)
Lemma foreign_throw_escapes :
  main foreign_world
  = (preamble [camera]
       ++ [Construct camera (Ok tt); Print (ReceivingImageSet 0);
           Collect timeout (Ok None); Collect timeout (Throws other_object)],
     Uncaught other_object)
  /\ raised (Collect timeout (Throws other_object)) = Some other_object
  /\ forall msg, ~ In (Print (ExceptionOccurred msg)) (fst (main foreign_world)).
Proof.
  split; [reflexivity |]. split; [reflexivity |].
  intros msg H. vm_compute in H.
  repeat (destruct H as [H | H]; [discriminate H |]). exact H.
Qed.

(** ** The reception loop *)


Lemma int_range_sorted (lo hi : Z) : StronglySorted Z.lt (int_range lo hi).
Proof.
  unfold int_range. generalize (Z.to_nat (hi - lo)) as len. generalize 0%nat as start.
  intros start len. revert start.
  induction len as [| len IH]; intros start; cbn [seq map]; constructor.
  - apply IH.
  - apply Forall_forall. intros x Hx. apply in_map_iff in Hx.
    destruct Hx as (k & <- & Hk). apply in_seq in Hk. lia.
Qed.




(** ** What is written for a received set *)

Lemma int_range_split (lo hi i : Z) :
  lo <= i < hi -> exists todo, int_range lo hi = int_range lo i ++ i :: todo.
Proof.
  intros Hi. apply in_int_range in Hi. apply in_split in Hi.
  destruct Hi as (done & todo & Heq). exists todo.
  destruct (int_range_cut _ _ _ _ _ Heq) as [Hdone _].
  now rewrite <- Hdone.
Qed.

(** Around a call that returns true, in a trace of the reception loop: the
    call closes the polling for an announced set, and the writes for the
    indices from 0 on follow it, all of them when none throws, and those up
    to the first one that throws otherwise. *)
Lemma shape_reception (l : list Z) (tr : list event) (res : result unit) :
  loop_shape l tr res ->
  forall before t imageSet after,
  tr = before ++ Collect t (Ok (Some imageSet)) :: after ->
  exists before' n polls,
    before = before' ++ Print (ReceivingImageSet n) :: polls
    /\ Forall timed_out polls /\ In n l
    /\ ((exists rest,
           after = map (write_ev imageSet n)
                       (int_range 0 (getNumberOfImages imageSet)) ++ rest
           /\ (forall j, 0 <= j < getNumberOfImages imageSet ->
                         writePgmFile imageSet j (fileName j n) = Ok tt)
           /\ ((rest = [] /\ res = Normal tt)
               \/ exists m rest', rest = Print (ReceivingImageSet m) :: rest'))
        \/ (exists i t0,
              0 <= i < getNumberOfImages imageSet
              /\ after = map (write_ev imageSet n) (int_range 0 (i + 1))
              /\ (forall j, 0 <= j < i ->
                            writePgmFile imageSet j (fileName j n) = Ok tt)
              /\ writePgmFile imageSet i (fileName i n) = Throws t0
              /\ res = Throw t0)).
Proof.
  induction 1 as [| n l polls Hpolls | n l polls ex Hpolls
                  | n l polls imageSet0 i0 ex Hpolls Hi Hok Hthrow
                  | n l polls imageSet0 tr res Hpolls Hok Hshape IH];
    intros before t imageSet after Htr.
  - now destruct before.
  - rewrite <- (app_nil_r polls) in Htr. apply block_cut in Htr.
    destruct Htr as [(_ & Habs & _) | [(p1 & p2 & Hcut & _) | (t1 & _ & Habs)]].
    + discriminate Habs.
    + destruct (polls_cut _ _ _ _ Hpolls Hcut) as (Habs & _). discriminate Habs.
    + now destruct t1.
  - apply block_cut in Htr.
    destruct Htr as [(_ & Habs & _) | [(p1 & p2 & Hcut & _) | (t1 & _ & Htail)]].
    + discriminate Habs.
    + destruct (polls_cut _ _ _ _ Hpolls Hcut) as (Habs & _). discriminate Habs.
    + apply cons_app_split in Htail.
      destruct Htail as [(_ & Habs & _) | (t1' & _ & Habs)]; [discriminate Habs |].
      now destruct t1'.
  - apply block_cut in Htr.
    destruct Htr as [(_ & Habs & _) | [(p1 & p2 & Hcut & _) | (t1 & Hbefore & Htail)]].
    + discriminate Habs.
    + destruct (polls_cut _ _ _ _ Hpolls Hcut) as (Habs & _). discriminate Habs.
    + apply cons_app_split in Htail.
      destruct Htail as [(-> & Heq & ->) | (t1' & _ & Htail)].
      * inversion Heq; subst. exists [], n, polls. rewrite app_nil_r.
        split; [reflexivity |]. split; [exact Hpolls |]. split; [now left |].
        right. exists i0, ex. repeat (split; [assumption || reflexivity |]).
        reflexivity.
      * apply map_cut in Htail. destruct Htail as (l1 & x & l2 & _ & _ & Habs & _).
        discriminate Habs.
  - apply block_cut in Htr.
    destruct Htr as [(_ & Habs & _) | [(p1 & p2 & Hcut & _) | (t1 & Hbefore & Htail)]].
    + discriminate Habs.
    + destruct (polls_cut _ _ _ _ Hpolls Hcut) as (Habs & _). discriminate Habs.
    + apply cons_app_split in Htail.
      destruct Htail as [(-> & Heq & ->) | (t1' & -> & Htail)].
      * inversion Heq; subst. exists [], n, polls. rewrite app_nil_r.
        split; [reflexivity |]. split; [exact Hpolls |]. split; [now left |].
        left. exists tr. split; [reflexivity |]. split; [exact Hok |].
        eapply shape_head; eassumption.
      * apply app_cons_split in Htail.
        destruct Htail as [(mid & Hcut & _) | (mid & -> & Hcut)].
        -- apply map_cut in Hcut. destruct Hcut as (l1 & x & l2 & _ & _ & Habs & _).
           discriminate Habs.
        -- destruct (IH _ _ _ _ Hcut) as (before' & n' & polls' & -> & Hpolls' & Hn' & Hnext).
           exists (Print (ReceivingImageSet n) :: polls
                     ++ Collect timeout (Ok (Some imageSet0))
                     :: map (write_ev imageSet0 n)
                            (int_range 0 (getNumberOfImages imageSet0)) ++ before'),
                  n', polls'.
           split.
           ++ rewrite Hbefore. cbn [app]. f_equal. rewrite <- !app_assoc.
              cbn [app]. now rewrite <- !app_assoc.
           ++ split; [exact Hpolls' |]. split; [now right | exact Hnext].
Qed.

(** After the reception of a set the run goes on with the writes for the
    indices of the set from 0 on: with all of them when none throws, after
    which it ends or announces another set, and with those up to the first
    one that throws otherwise. *)
Lemma received_block (w : World) (tr : list event) (st : status)
    (imgNum : Z) (imageSet : ImageSet) (after : list event) :
  main w = (tr, st) ->
  receives tr imgNum imageSet after ->
  0 <= imgNum < 100
  /\ ((exists rest,
         after = map (write_ev imageSet imgNum)
                     (int_range 0 (getNumberOfImages imageSet)) ++ rest
         /\ (forall j, 0 <= j < getNumberOfImages imageSet ->
                       writePgmFile imageSet j (fileName j imgNum) = Ok tt)
         /\ (rest = [] \/ exists m rest', rest = Print (ReceivingImageSet m) :: rest'))
      \/ (exists i t0 rest,
            0 <= i < getNumberOfImages imageSet
            /\ after = map (write_ev imageSet imgNum) (int_range 0 (i + 1)) ++ rest
            /\ (forall j, 0 <= j < i ->
                          writePgmFile imageSet j (fileName j imgNum) = Ok tt)
            /\ writePgmFile imageSet i (fileName i imgNum) = Throws t0)).
Proof.
  intros Hmain (before0 & polls0 & Htr & Hpolls0).
  assert (Hfst : fst (main w) = tr) by now rewrite Hmain.
  rewrite <- Hfst in Htr. rewrite app_comm_cons, app_assoc in Htr.
  destruct (main_loop_cut _ _ _ _ Htr (or_introl eq_refl))
    as (pre & loop & res & lb & la & Hshape & Hloop & Hbefore & -> & _).
  destruct (shape_reception _ _ _ Hshape _ _ _ _ Hloop)
    as (before' & n & polls & -> & Hpolls & Hn & Hnext).
  rewrite app_assoc in Hbefore.
  apply last_announcement in Hbefore; try assumption.
  destruct Hbefore as (_ & Heq & _). inversion Heq; subst n; clear Heq.
  split; [now apply in_int_range in Hn |].
  destruct Hnext as [(rest & -> & Hok & Hrest) | (i & t0 & Hi & -> & Hok & Hthrow & _)].
  - left. exists (rest ++ epilogue res). rewrite <- app_assoc.
    split; [reflexivity |]. split; [exact Hok |].
    destruct Hrest as [[-> ->] | (m & rest' & ->)].
    + now left.
    + right. exists m, (rest' ++ epilogue res). reflexivity.
  - right. exists i, t0, (epilogue res). repeat (split; [assumption || reflexivity |]).
    exact Hthrow.
Qed.

Lemma writes_ok (imageSet : ImageSet) (imgNum : Z) (l : list Z) :
  (forall j, In j l -> writePgmFile imageSet j (fileName j imgNum) = Ok tt) ->
  map (write_ev imageSet imgNum) l
  = map (fun i => WritePgm i (fileName i imgNum) (Ok tt)) l.
Proof.
  intros Hok. apply map_ext_in. intros j Hj. unfold write_ev. now rewrite Hok.
Qed.

(** C6, as the code has it.  For every received image set none of whose
    writes throws, that is, no call [writePgmFile(i, fileName)] for an index
    [i] of the set and the name the program gives it, the calls of
    [writePgmFile] that follow the reception are exactly one per sub-image,
    for the indices 0 to [getNumberOfImages() - 1] in increasing order; after
    them the run ends or announces another set. *)
Theorem one_write_per_image (w : World) (tr : list event) (st : status)
    (imgNum : Z) (imageSet : ImageSet) (after : list event) :
  main w = (tr, st) ->
  receives tr imgNum imageSet after ->
  (forall i t, 0 <= i < getNumberOfImages imageSet ->
               writePgmFile imageSet i (fileName i imgNum) <> Throws t) ->
  (exists rest,
     after = map (fun i => WritePgm i (fileName i imgNum) (Ok tt))
                 (int_range 0 (getNumberOfImages imageSet)) ++ rest
     /\ (rest = [] \/ exists m rest', rest = Print (ReceivingImageSet m) :: rest'))
  /\ (forall i, In i (int_range 0 (getNumberOfImages imageSet))
                <-> 0 <= i < getNumberOfImages imageSet)
  /\ StronglySorted Z.lt (int_range 0 (getNumberOfImages imageSet)).
Proof.
  intros Hmain Hrecv Hno. split; [| split].
  - destruct (received_block _ _ _ _ _ _ Hmain Hrecv)
      as (_ & [(rest & -> & Hok & Hrest) | (i & t0 & rest & Hi & _ & _ & Hthrow)]).
    + exists rest. split; [| exact Hrest]. f_equal. apply writes_ok.
      intros j Hj. apply Hok. now apply in_int_range.
    + now destruct (Hno i t0 Hi).
  - intros i. apply in_int_range.
  - apply int_range_sorted.
Qed.

Lemma one_write_per_image_witness :
  (exists rest,
     skipn 8 (fst (main mixed_world))
     = map (fun i => WritePgm i (fileName i 0) (Ok tt))
           (int_range 0 (getNumberOfImages strictImages)) ++ rest
     /\ (rest = [] \/ exists m rest', rest = Print (ReceivingImageSet m) :: rest'))
  /\ (forall i, In i (int_range 0 (getNumberOfImages strictImages))
                <-> 0 <= i < getNumberOfImages strictImages)
  /\ StronglySorted Z.lt (int_range 0 (getNumberOfImages strictImages)).
Proof.
  apply (one_write_per_image mixed_world (fst (main mixed_world)) (Exit 0) 0 strictImages).
  - reflexivity.
  - exists (firstn 5 (fst (main mixed_world))), [Collect timeout (Ok None)].
    split; [reflexivity | repeat constructor].
  - intros i t Hi. cbn in Hi |- *.
    destruct (Z.leb_spec 0 i); [| lia]. destruct (Z.ltb_spec i 2); [| lia].
    discriminate.
Defined.

(** C6 as stated fails: a set of two images is received, the write of image
    0 throws, and no call of [writePgmFile] is made for image 1. *)
Lemma write_skipped_after_throw :
  snd (main bad_write_world) = Exit 0
  /\ (exists after, receives (fst (main bad_write_world)) 0 badImages after)
  /\ getNumberOfImages badImages = 2
  /\ ~ (exists name r, In (WritePgm 1 name r) (fst (main bad_write_world))).
Proof.
  split; [reflexivity |]. split; [| split; [reflexivity |]].
  - exists (skipn 8 (fst (main bad_write_world))).
    exists (firstn 5 (fst (main bad_write_world))), [Collect timeout (Ok None)].
    split; [reflexivity | repeat constructor].
  - intros (name & r & H). vm_compute in H.
    repeat (destruct H as [H | H]; [discriminate H |]). exact H.
Qed.

(** C1, as the code has it.  For every received image set with set number
    [imgNum] and every sub-image index [i] of it such that no write of the
    set for a smaller index throws, the run calls [writePgmFile] for [i],
    after one call for each smaller index, in increasing order, with the
    name [image<i>_<imgNum>.pgm]: the zero-padded three-digit field holds the
    sub-image index and the plain decimal field the set number, which lies in
    0..99. *)
Theorem written_file_names (w : World) (tr : list event) (st : status)
    (imgNum : Z) (imageSet : ImageSet) (after : list event) (i : Z) :
  main w = (tr, st) ->
  receives tr imgNum imageSet after ->
  0 <= i < getNumberOfImages imageSet -> i <= INT_MAX ->
  (forall j t, 0 <= j < i ->
               writePgmFile imageSet j (fileName j imgNum) <> Throws t) ->
  0 <= imgNum < 100
  /\ (exists rest,
        after = map (fun j => WritePgm j (fileName j imgNum) (Ok tt)) (int_range 0 i)
                  ++ WritePgm i (fileName i imgNum)
                              (writePgmFile imageSet i (fileName i imgNum))
                  :: rest)
  /\ fileName i imgNum
     = ("image" ++ string_of_list_ascii (fmt_03d i) ++ "_"
          ++ string_of_list_ascii (fmt_d imgNum) ++ ".pgm")%string.
Proof.
  intros Hmain Hrecv Hi Hmax Hno.
  destruct (received_block _ _ _ _ _ _ Hmain Hrecv) as (Hn & Hblock).
  split; [exact Hn |]. split.
  - destruct Hblock as [(rest & -> & Hok & _) | (i0 & t0 & rest & Hi0 & -> & Hok & Hthrow)].
    + destruct (int_range_split 0 (getNumberOfImages imageSet) i Hi) as (todo & ->).
      exists (map (write_ev imageSet imgNum) todo ++ rest).
      rewrite map_app, <- app_assoc. cbn [map app]. f_equal.
      apply writes_ok. intros j Hj. apply Hok. apply in_int_range in Hj. lia.
    + destruct (Z_lt_le_dec i0 i) as [Hlt | Hle].
      * now destruct (Hno i0 t0 ltac:(lia)).
      * destruct (int_range_split 0 (i0 + 1) i ltac:(lia)) as (todo & ->).
        exists (map (write_ev imageSet imgNum) todo ++ rest).
        rewrite map_app, <- app_assoc. cbn [map app]. f_equal.
        apply writes_ok. intros j Hj. apply Hok. apply in_int_range in Hj. lia.
  - rewrite fileName_eq by lia. unfold format_fileName.
    now rewrite !string_of_list_ascii_app.
Qed.

Lemma written_file_names_witness :
  0 <= 1 < 100
  /\ (exists rest,
        skipn 12 (fst (main mixed_world))
        = map (fun j => WritePgm j (fileName j 1) (Ok tt)) (int_range 0 1)
            ++ WritePgm 1 (fileName 1 1)
                        (writePgmFile partlyBadImages 1 (fileName 1 1))
            :: rest)
  /\ fileName 1 1
     = ("image" ++ string_of_list_ascii (fmt_03d 1) ++ "_"
          ++ string_of_list_ascii (fmt_d 1) ++ ".pgm")%string.
Proof.
  apply (written_file_names mixed_world (fst (main mixed_world)) (Exit 0) 1
           partlyBadImages).
  - reflexivity.
  - exists (firstn 10 (fst (main mixed_world))), [].
    split; [reflexivity | constructor].
  - cbn. lia.
  - unfold INT_MAX. lia.
  - intros j t Hj. replace j with 0 by lia. discriminate.
Defined.

Lemma not_written (name : string) (l : list string) :
  existsb (String.eqb name) l = false -> ~ In name l.
Proof.
  intros H Hin. assert (existsb (String.eqb name) l = true); [| congruence].
  apply existsb_exists. exists name. split; [exact Hin | apply String.eqb_refl].
Qed.

(** C1 as stated fails, in two ways.  In a complete run of 100 sets of one
    image each, set 5 is received, but no file is written under the name the
    specification gives for its image 0, [image005_0.pgm]; that image goes to
    [image000_5.pgm].  And when a set of two images is received and the write
    of its image 0 throws, no file at all is written for its image 1. *)
Lemma spec_fileName_not_written :
  (snd (main steady_world) = Exit 0
   /\ (exists after, receives (fst (main steady_world)) 5 oneImage after)
   /\ 0 <= 0 < getNumberOfImages oneImage
   /\ spec_fileName 5 0 = "image005_0.pgm"%string
   /\ ~ In (spec_fileName 5 0) (written (fst (main steady_world)))
   /\ In (WritePgm 0 "image000_5.pgm" (Ok tt)) (fst (main steady_world)))
  /\ (snd (main bad_write_world) = Exit 0
      /\ (exists after, receives (fst (main bad_write_world)) 0 badImages after)
      /\ 0 <= 1 < getNumberOfImages badImages
      /\ writePgmFile badImages 0 (fileName 0 0)
         = Throws (std_exception pixel_format_error)
      /\ written (fst (main bad_write_world)) = [fileName 0 0]
      /\ ~ In (fileName 1 0) (written (fst (main bad_write_world)))
      /\ ~ In (spec_fileName 0 1) (written (fst (main bad_write_world)))).
Proof.
  split.
  - split; [vm_compute; reflexivity |].
    split; [| split; [cbn; lia | split; [reflexivity | split]]].
    + exists (skipn 22 (fst (main steady_world))).
      exists (firstn 20 (fst (main steady_world))), [].
      split; [vm_compute; reflexivity | constructor].
    + apply not_written. vm_compute. reflexivity.
    + assert (H : nth_error (fst (main steady_world)) 22
                  = Some (WritePgm 0 "image000_5.pgm" (Ok tt))) by (vm_compute; reflexivity).
      eapply nth_error_In; exact H.
  - split; [reflexivity |].
    split; [| split; [cbn; lia | split; [reflexivity | split; [reflexivity | split]]]].
    + exists (skipn 8 (fst (main bad_write_world))).
      exists (firstn 5 (fst (main bad_write_world))), [Collect timeout (Ok None)].
      split; [reflexivity | repeat constructor].
    + apply not_written. vm_compute. reflexivity.
    + apply not_written. vm_compute. reflexivity.
Qed.

(** ** A run without exceptions receives 100 sets *)

Lemma receptions_succeed_spec (tr : list event) :
  receptions_succeed tr = true ->
  forall before n after,
  tr = before ++ Print (ReceivingImageSet n) :: after ->
  exists t imageSet, In (Collect t (Ok (Some imageSet))) after.
Proof.
  induction tr as [| e tr IH]; intros H before n after Htr.
  - now destruct before.
  - destruct before as [| e' before]; cbn [app] in Htr; inversion Htr; subst; clear Htr.
    + cbn [receptions_succeed] in H. apply andb_prop in H. destruct H as [H _].
      apply existsb_exists in H. destruct H as (e & Hin & He).
      destruct e as [| | | t [[imageSet |] |] |]; try discriminate He.
      now exists t, imageSet.
    + apply (IH) with (before := before) (n := n); [| reflexivity].
      destruct e' as [| m | | |]; cbn [receptions_succeed] in H; try exact H.
      destruct m; try exact H. apply andb_prop in H. now destruct H.
Qed.

Section Completion.

Lemma writes_quiet (imageSet : ImageSet) (imgNum : Z) (l : list Z) :
  announced (map (write_ev imageSet imgNum) l) = []
  /\ received (map (write_ev imageSet imgNum) l) = [].
Proof. induction l as [| i l IH]; [split; reflexivity | exact IH]. Qed.

Lemma poll_succeeds (s : list reply) :
  Forall quiet s -> (1 <= successes s)%nat ->
  exists tr imageSet s',
    poll s = (tr, s', Normal imageSet)
    /\ announced tr = [] /\ received tr = [imageSet]
    /\ (forall i name, writePgmFile imageSet i name = Ok tt)
    /\ Forall quiet s' /\ successes s = S (successes s').
Proof.
  induction 1 as [| r s Hr Hs IH]; intros Hsucc.
  - cbn in Hsucc. lia.
  - destruct r as [[imageSet |] | ex]; cbn [poll].
    + exists [Collect timeout (Ok (Some imageSet))], imageSet, s. repeat split; assumption.
    + destruct (IH Hsucc) as (tr & imageSet & s' & -> & Ha & Hrcv & Hok & Hs' & Hn).
      exists (Collect timeout (Ok None) :: tr), imageSet, s'. repeat split; assumption.
    + contradiction.
Qed.

Lemma writes_succeed (imageSet : ImageSet) (imgNum : Z) :
  (forall i name, writePgmFile imageSet i name = Ok tt) ->
  forall l s,
    for_each l (write_image imageSet imgNum) s
    = (map (write_ev imageSet imgNum) l, s, Normal tt).
Proof.
  intros Hok. induction l as [| i l IH]; intros s; [reflexivity |].
  rewrite for_each_cons_run. unfold write_image at 1, call. cbv zeta.
  rewrite Hok, IH. cbn [map].
  replace (write_ev imageSet imgNum i) with (WritePgm i (fileName i imgNum) (Ok tt))
    by (unfold write_ev; now rewrite Hok).
  reflexivity.
Qed.

Lemma block_succeeds (imgNum : Z) (s : list reply) :
  Forall quiet s -> (1 <= successes s)%nat ->
  exists tr s',
    receive_image_set imgNum s = (tr, s', Normal tt)
    /\ announced tr = [imgNum] /\ List.length (received tr) = 1%nat
    /\ Forall quiet s' /\ successes s = S (successes s').
Proof.
  intros Hq Hsucc.
  destruct (poll_succeeds s Hq Hsucc) as (tr & imageSet & s' & Hp & Ha & Hr & Hok & Hs' & Hn).
  rewrite receive_image_set_run, Hp, (writes_succeed _ _ Hok).
  eexists. exists s'. split; [reflexivity |].
  destruct (writes_quiet imageSet imgNum (int_range 0 (getNumberOfImages imageSet)))
    as [Hwa Hwr].
  change (Print (ReceivingImageSet imgNum) :: tr ++ ?x)
    with ([Print (ReceivingImageSet imgNum)] ++ tr ++ x).
  rewrite !announced_app, !received_app, Ha, Hr, Hwa, Hwr. repeat split; assumption.
Qed.

Lemma loop_succeeds (l : list Z) :
  forall s, Forall quiet s -> (List.length l <= successes s)%nat ->
  exists tr s',
    for_each l receive_image_set s = (tr, s', Normal tt)
    /\ announced tr = l /\ List.length (received tr) = List.length l.
Proof.
  induction l as [| n l IH]; intros s Hq Hsucc.
  - exists [], s. repeat split.
  - cbn [List.length] in Hsucc.
    destruct (block_succeeds n s Hq ltac:(lia)) as (tr1 & s1 & H1 & Ha1 & Hr1 & Hq1 & Hn1).
    destruct (IH s1 Hq1 ltac:(lia)) as (tr2 & s2 & H2 & Ha2 & Hr2).
    exists (tr1 ++ tr2), s2. rewrite for_each_cons_run, H1, H2.
    rewrite announced_app, received_app, length_app, Ha1, Ha2, Hr1, Hr2.
    repeat split.
Qed.

End Completion.

(** Such runs exist, and end: when a device is discovered, the transfer
    object is constructed, no reply and no write throws and at least 100
    calls return true, [main] returns 0 with 100 sets received. *)
Lemma quiet_world_completes (w : World) (device0 : DeviceInfo)
    (others : list DeviceInfo) :
  discoverDevices w = Ok (device0 :: others) ->
  AsyncTransfer w device0 = Ok tt ->
  Forall quiet (collectReceivedImageSet w) ->
  (100 <= successes (collectReceivedImageSet w))%nat ->
  exists tr,
    main w = (tr, Exit 0)
    /\ announced tr = int_range 0 100
    /\ List.length (received tr) = 100%nat.
Proof.
  intros Hd Hc Hq Hsucc.
  destruct (loop_succeeds (int_range 0 100) _ Hq Hsucc) as (loop & s' & Hloop & Ha & Hr).
  destruct (main_cases w _ _ (surjective_pairing (main w)))
    as [(t & Habs & _) | [(Habs & _) | [Hcase | Hcase]]].
  - congruence.
  - congruence.
  - destruct Hcase as (d & ds & t & Hd' & Hc' & _). congruence.
  - destruct Hcase as (d & ds & loop' & s'' & res & Hd' & Hc' & Hloop' & Htr & Hst).
    rewrite Hloop in Hloop'. inversion Hloop'; subst loop' s'' res.
    exists (fst (main w)). split.
    + rewrite (surjective_pairing (main w)). cbn [fst snd]. now rewrite Hst.
    + rewrite Htr.
      pose proof (run_readers (d :: ds) d loop (Normal tt)) as Hrun.
      cbv zeta in Hrun. rewrite <- app_assoc in Hrun. cbn [app] in Hrun.
      destruct Hrun as (Hra & Hrr & _). rewrite Hra, Hrr, Ha, Hr.
      split; reflexivity.
Qed.

(** C4.  In a run where a device is discovered, no call throws and every
    announced reception is followed by a call of [collectReceivedImageSet]
    that returns true, [main] returns 0 after announcing the set numbers 0,
    1, ..., 99 in this order and receiving exactly 100 image sets. *)
Theorem receives_100_image_sets (w : World) (tr : list event) (st : status) :
  main w = (tr, st) ->
  (exists device0 others, discoverDevices w = Ok (device0 :: others)) ->
  (forall e, In e tr -> raised e = None) ->
  (forall before n after,
     tr = before ++ Print (ReceivingImageSet n) :: after ->
     exists t imageSet, In (Collect t (Ok (Some imageSet))) after) ->
  st = Exit 0
  /\ announced tr = int_range 0 100
  /\ List.length (received tr) = 100%nat.
Proof.
  intros Hmain (d0 & ds0 & Hd) Hquiet Hsucc.
  assert (Hfst : fst (main w) = tr) by now rewrite Hmain.
  assert (Hsnd : snd (main w) = st) by now rewrite Hmain.
  destruct (main_shape w) as [(_ & _ & _ & _ & Hshort) | Hrun].
  - destruct Hshort as [[Habs _] | (e & t & He & Hr)]; [congruence |].
    rewrite Hfst in He. rewrite (Hquiet e He) in Hr. discriminate Hr.
  - destruct Hrun as (device0 & others & loop & res & _ & _ & Htr & Hst & Hshape & _).
    rewrite Hfst in Htr. rewrite Hsnd in Hst.
    destruct (run_readers (device0 :: others) device0 loop res) as (Hra & Hrr & _).
    cbv zeta in Hra, Hrr. rewrite <- Htr in Hra, Hrr.
    destruct (loop_progress _ _ _ Hshape) as (k & Hk & Hann & Hres).
    destruct res as [[] | code | t |].
    + destruct Hres as [-> Hlen]. rewrite firstn_all in Hann.
      split; [exact Hst |]. split; [congruence |].
      rewrite Hrr, Hlen. reflexivity.
    + destruct Hres.
    + destruct (loop_throw_last _ _ _ Hshape) as (lb & e & -> & Hr).
      rewrite (Hquiet e) in Hr; [discriminate Hr |].
      rewrite Htr. apply in_or_app. right. apply in_or_app. left.
      apply in_or_app. right. now left.
    + destruct Hres as (_ & lb & n & polls & -> & Hpolls & _).
      destruct (Hsucc ((preamble (device0 :: others) ++ [Construct device0 (Ok tt)]) ++ lb)
                      n polls) as (t & imageSet & Hin).
      * rewrite Htr. cbn [epilogue]. now rewrite app_nil_r, !app_assoc.
      * rewrite Forall_forall in Hpolls. apply Hpolls in Hin. discriminate Hin.
Qed.

Lemma receives_100_image_sets_witness :
  snd (main slow_world) = Exit 0
  /\ announced (fst (main slow_world)) = int_range 0 100
  /\ List.length (received (fst (main slow_world))) = 100%nat.
Proof.
  apply (receives_100_image_sets slow_world (fst (main slow_world))
           (snd (main slow_world))).
  - apply surjective_pairing.
  - exists camera, []. reflexivity.
  - intros e He.
    assert (Hall : forallb (fun e => match raised e with None => true | Some _ => false end)
                           (fst (main slow_world)) = true) by (vm_compute; reflexivity).
    rewrite forallb_forall in Hall. specialize (Hall e He).
    now destruct (raised e).
  - apply receptions_succeed_spec. vm_compute. reflexivity.
Defined.

(** ** The settings dialog *)

(** C7, as the header has it.  The public operations of [SettingsDialog]
    are the getter [getSettings] and the static helper
    [chooseWriteDirectory], which returns a boolean; there is no setter: the
    only other public member that is handed settings is the constructor. *)
Theorem SettingsDialog_interface :
  map SettingsDialog.name SettingsDialog.public_operations
  = ["getSettings"; "chooseWriteDirectory"]%string
  /\ map SettingsDialog.name (filter SettingsDialog.is_getter SettingsDialog.members)
     = ["getSettings"]%string
  /\ filter SettingsDialog.is_setter SettingsDialog.members = []
  /\ map SettingsDialog.name
         (filter SettingsDialog.is_static_bool_helper SettingsDialog.members)
     = ["chooseWriteDirectory"]%string
  /\ map SettingsDialog.name
         (filter (fun m => SettingsDialog.is_public m
                           && existsb SettingsDialog.is_Settings (SettingsDialog.params m))
                 SettingsDialog.members)
     = ["SettingsDialog"; "chooseWriteDirectory"]%string.
Proof. repeat split. Qed.

(** C7 as stated fails: no member of the class is a setter. *)
Lemma SettingsDialog_has_no_setter :
  ~ (exists m, In m SettingsDialog.members /\ SettingsDialog.is_setter m = true).
Proof.
  intros (m & Hin & Hs). cbn in Hin.
  repeat (destruct Hin as [<- | Hin]; [discriminate Hs |]). exact Hin.
Qed.

(** ** Sample names *)

Example fileName_1_0 : fileName 1 0 = "image001_0.pgm"%string.
Proof. reflexivity. Qed.

Example fileName_0_57 : fileName 0 57 = "image000_57.pgm"%string.
Proof. reflexivity. Qed.

Example fileName_1234_99 : fileName 1234 99 = "image1234_99.pgm"%string.
Proof. reflexivity. Qed.

Example fmt_03d_negative : string_of_list_ascii (fmt_03d (-7)) = "-07"%string.
Proof. reflexivity. Qed.

Example fmt_d_INT_MAX : string_of_list_ascii (fmt_d INT_MAX) = "2147483647"%string.
Proof. reflexivity. Qed.

Example announce_text :
  text (ReceivingImageSet 42) = (cout, ("Receiving image set 42" ++ endl)%string).
Proof. reflexivity. Qed.

Example silent_run_status : snd (main silent_world) = Polling.
Proof. reflexivity. Qed.

Example broken_run :
  main broken_world
  = ([Discover (Throws (std_exception {| what := "socket error" |}));
      Print (ExceptionOccurred "socket error")], Exit 0).
Proof. reflexivity. Qed.

Example foreign_run_status : snd (main foreign_world) = Uncaught other_object.
Proof. reflexivity. Qed.
